(** * ksql: named connection registry and column-by-name row cursors

    A shallow embedding of [ksql.go].  The package decorates Go's
    [database/sql]: that library is not part of the repository, so its
    result stream ([*sql.Rows]) and its connection handle ([*sql.DB]) are
    taken as interfaces (type classes) and every result below holds for
    any implementation of them.  A reference implementation that behaves
    like [database/sql] over a single result set is given in
    [Module Driver] and is used to run the definitions on concrete data. *)

From Stdlib Require Import ZArith String List.
From Stdlib Require Import Floats.SpecFloat.
From stdpp Require Import base option list gmap strings sorting.

Open Scope string_scope.
Open Scope list_scope.
Open Scope nat_scope.

(** ** Errors *)

(** The four sentinel errors of the package; [DriverError] stands for any
    error value produced by [database/sql] or the driver, which ksql
    passes through unchanged. *)
Inductive error : Type :=
  | ErrNoRows
  | ErrDupConnName
  | ErrColumnNotFound
  | ErrInvalidColumnTypeConversion
  | DriverError (msg : string).

Global Instance error_eq_dec : EqDecision error.
Proof. solve_decision. Defined.

(** ** Dynamically typed values ([interface{}]) *)

Inductive int_kind := KInt | KInt8 | KInt16 | KInt32 | KInt64.
Inductive uint_kind := KUint | KUint8 | KUint16 | KUint32 | KUint64.

(** [time.Time], as seconds and nanoseconds since the zero time. *)
Record Time := mkTime { t_sec : Z; t_nsec : Z }.

(** The zero value [time.Time{}]. *)
Definition Time_zero : Time := mkTime 0 0.

(** A value together with its runtime kind.  Floating point payloads are
    kept as the number they denote ([spec_float]), never computed with. *)
Inductive value : Type :=
  | VNil
  | VBool (b : bool)
  | VInt (k : int_kind) (n : Z)
  | VUint (k : uint_kind) (n : Z)
  | VFloat32 (f : spec_float)
  | VFloat64 (f : spec_float)
  | VString (s : string)
  | VBytes (b : list Z)
  | VTime (t : Time).

(** ** Panics *)

(** A Go call either returns or panics (nil dereference, index out of
    range, write to a nil map). *)
Inductive outcome (A : Type) : Type :=
  | Ret (a : A)
  | Panic (msg : string).
Arguments Ret {A} a.
Arguments Panic {A} msg.

Global Instance outcome_ret : MRet outcome := λ A a, Ret a.
Global Instance outcome_bind : MBind outcome := λ A B k m,
  match m with
  | Ret a => k a
  | Panic msg => Panic msg
  end.

(** ** The wrapped result stream, [*sql.Rows] *)

(** What ksql calls on the embedded [*sql.Rows].  [sql_Scan] receives
    the current contents of the destinations it is handed and returns
    their contents afterwards; it writes through the pointers it is given
    and so cannot change how many there are. *)
Class SqlRows (S : Type) := {
  sql_Next : S → bool * S;
  sql_Err : S → option error;
  sql_Columns : S → option (list string) * option error;
  sql_Scan : S → list value → (list value * option error) * S;
  sql_Close : S → option error * S;
  sql_Scan_length : ∀ s dest, length (sql_Scan s dest).1.1 = length dest
}.

(** ** Buffered row cursor, [Rows] *)

(** Go's [nil] slice and [nil] map are [None]; [make] gives [Some]. *)
Record Rows (S : Type) := mkRows {
  rs_Rows : S;
  rs_err : option error;
  rs_columns : option (list string);
  rs_loader : list value;
  rs_values : option (gmap string value)
}.
Arguments mkRows {S}.
Arguments rs_Rows {S}.
Arguments rs_err {S}.
Arguments rs_columns {S}.
Arguments rs_loader {S}.
Arguments rs_values {S}.

(** [len] and [range] over a possibly nil slice. *)
Definition slice {A} (s : option (list A)) : list A := default [] s.

(** [rs.values[column]]: reading a nil map or a missing key gives the
    zero value and [ok = false]. *)
Definition map_index (m : option (gmap string value)) (column : string)
  : value * bool :=
  match m with
  | Some vs =>
      match vs !! column with
      | Some v => (v, true)
      | None => (VNil, false)
      end
  | None => (VNil, false)
  end.

(** The loop [for i := range rs.columns] that stores the content of
    decode target [rs.loader[i]] under the key [rs.columns[i]] of
    [rs.values], from index [i] on. *)
Fixpoint publish (cols : list string) (i : nat) (loader : list value)
    (vals : option (gmap string value))
  : outcome (option (gmap string value)) :=
  match cols with
  | [] => Ret vals
  | c :: cols' =>
      match loader !! i with
      | None => Panic "index out of range"
      | Some v =>
          match vals with
          | None => Panic "assignment to entry in nil map"
          | Some m => publish cols' (S i) loader (Some (<[c := v]> m))
          end
      end
  end.

Section Cursor.
Context {S : Type} `{SqlRows S}.

(** [&Rows{Rows: rows}] *)
Definition newRows (rows : S) : Rows S :=
  mkRows rows None None [] None.

Definition Rows_Err (rs : Rows S) : option error :=
  match sql_Err (rs_Rows rs) with
  | Some e => Some e
  | None =>
      match rs_err rs with
      | Some e => Some e
      | None => None
      end
  end.

(** [rs.Close()] is the promoted method of the embedded stream. *)
Definition Rows_Close (rs : Rows S) : option error * Rows S :=
  let '(e, s) := sql_Close (rs_Rows rs) in
  (e, mkRows s (rs_err rs) (rs_columns rs) (rs_loader rs) (rs_values rs)).

(** [rs.Scan(dest...)], likewise promoted. *)
Definition Rows_Scan (rs : Rows S) (dest : list value)
  : (list value * option error) * Rows S :=
  let '(r, s) := sql_Scan (rs_Rows rs) dest in
  (r, mkRows s (rs_err rs) (rs_columns rs) (rs_loader rs) (rs_values rs)).

(** The second half of [Next]: scan into the loader and publish. *)
Definition Rows_Next_load (rs : Rows S) : outcome (bool * Rows S) :=
  let '((cells, e), s) := sql_Scan (rs_Rows rs) (rs_loader rs) in
  let rs := mkRows s e (rs_columns rs) cells (rs_values rs) in
  match e with
  | Some _ => Ret (false, rs)
  | None =>
      vals ← publish (slice (rs_columns rs)) 0 (rs_loader rs) (rs_values rs);
      Ret (true, mkRows (rs_Rows rs) (rs_err rs) (rs_columns rs)
                   (rs_loader rs) vals)
  end.

Definition Rows_Next (rs : Rows S) : outcome (bool * Rows S) :=
  match rs_err rs with
  | Some _ => Ret (false, rs)
  | None =>
      let '(more, s) := sql_Next (rs_Rows rs) in
      let rs := mkRows s (rs_err rs) (rs_columns rs) (rs_loader rs)
                  (rs_values rs) in
      if negb more then Ret (false, rs)
      else
        match rs_columns rs with
        | None =>
            let '(cols, e) := sql_Columns (rs_Rows rs) in
            let rs := mkRows (rs_Rows rs) e cols (rs_loader rs)
                        (rs_values rs) in
            match e with
            | Some _ => Ret (false, rs)
            | None =>
                Rows_Next_load
                  (mkRows (rs_Rows rs) (rs_err rs) (rs_columns rs)
                     (replicate (length (slice (rs_columns rs))) VNil)
                     (Some ∅))
            end
        | Some _ => Rows_Next_load rs
        end
  end.

Definition validateRows (rs : Rows S) (column : string) : option error :=
  match Rows_Err rs with
  | Some e => Some e
  | None =>
      match rs_values rs with
      | None => Some ErrNoRows
      | Some _ =>
          if (map_index (rs_values rs) column).2 then None
          else Some ErrColumnNotFound
      end
  end.

End Cursor.

(** ** Conversions *)

Definition convertToInt (v : value) : Z * option error :=
  match v with
  | VInt _ n => (n, None)
  | _ => (0%Z, Some ErrInvalidColumnTypeConversion)
  end.

Definition convertToDouble (v : value) : spec_float * option error :=
  match v with
  | VFloat32 f | VFloat64 f => (f, None)
  | _ => (S754_zero false, Some ErrInvalidColumnTypeConversion)
  end.

Definition convertToString (v : value) : string * option error :=
  match v with
  | VString s => (s, None)
  | _ => ("", Some ErrInvalidColumnTypeConversion)
  end.

Definition convertToTime (v : value) : Time * option error :=
  match v with
  | VTime t => (t, None)
  | _ => (Time_zero, Some ErrInvalidColumnTypeConversion)
  end.

(** ** Typed getters of the cursor *)

Section Getters.
Context {S : Type} `{SqlRows S}.

(** The type assertion [rs.values[column].(bool)]. *)
Definition Rows_GetBoolean (rs : Rows S) (column : string)
  : bool * option error :=
  match (map_index (rs_values rs) column).1 with
  | VBool b => (b, None)
  | _ => (false, Some ErrInvalidColumnTypeConversion)
  end.

Definition Rows_GetInteger (rs : Rows S) (column : string)
  : Z * option error :=
  match validateRows rs column with
  | Some e => (0%Z, Some e)
  | None =>
      match convertToInt (map_index (rs_values rs) column).1 with
      | (_, Some e) => (0%Z, Some e)
      | (v, None) => (v, None)
      end
  end.

Definition Rows_GetDouble (rs : Rows S) (column : string)
  : spec_float * option error :=
  match validateRows rs column with
  | Some e => (S754_zero false, Some e)
  | None =>
      match convertToDouble (map_index (rs_values rs) column).1 with
      | (_, Some e) => (S754_zero false, Some e)
      | (v, None) => (v, None)
      end
  end.

Definition Rows_GetString (rs : Rows S) (column : string)
  : string * option error :=
  match validateRows rs column with
  | Some e => ("", Some e)
  | None =>
      match convertToString (map_index (rs_values rs) column).1 with
      | (_, Some e) => ("", Some e)
      | (v, None) => (v, None)
      end
  end.

Definition Rows_GetTime (rs : Rows S) (column : string)
  : Time * option error :=
  match validateRows rs column with
  | Some e => (Time_zero, Some e)
  | None =>
      match convertToTime (map_index (rs_values rs) column).1 with
      | (_, Some e) => (Time_zero, Some e)
      | (v, None) => (v, None)
      end
  end.

End Getters.

(** ** Single-row view, [Row] *)

Record Row (S : Type) := mkRow {
  r_err : option error;
  r_next : bool;
  r_rows : option (Rows S)
}.
Arguments mkRow {S}.
Arguments r_err {S}.
Arguments r_next {S}.
Arguments r_rows {S}.

Section SingleRow.
Context {S : Type} `{SqlRows S}.

(** [&Row{rows: rows, err: err}], from the two results of [Query]. *)
Definition QueryRow (q : option S * option error) : Row S :=
  mkRow q.2 false (newRows <$> q.1).

(** [defer r.rows.Close()]: runs when the function returns, its result
    is dropped. *)
Definition deferred_Close {A} (ret : A) (r : Row S) (rs : Rows S)
  : outcome (A * Row S) :=
  Ret (ret, mkRow (r_err r) (r_next r) (Some (Rows_Close rs).2)).

Definition Row_Scan (r : Row S) (dest : list value)
  : outcome ((list value * option error) * Row S) :=
  match r_err r with
  | Some e => Ret ((dest, Some e), r)
  | None =>
      match r_rows r with
      | None => Panic "nil pointer dereference"
      | Some rs =>
          '(more, rs) ← Rows_Next rs;
          if negb more then
            match Rows_Err rs with
            | Some e => deferred_Close (dest, Some e) r rs
            | None => deferred_Close (dest, Some ErrNoRows) r rs
            end
          else
            let '((dest, e), rs) := Rows_Scan rs dest in
            match e with
            | Some e => deferred_Close (dest, Some e) r rs
            | None =>
                let '(e, rs) := Rows_Close rs in
                match e with
                | Some e => deferred_Close (dest, Some e) r rs
                | None => deferred_Close (dest, None) r rs
                end
            end
      end
  end.

Definition next (r : Row S) : outcome (option error * Row S) :=
  if r_next r then Ret (None, r)
  else
    let r := mkRow (r_err r) true (r_rows r) in
    match r_rows r with
    | None => Panic "nil pointer dereference"
    | Some rs =>
        '(more, rs) ← Rows_Next rs;
        if negb more then
          match Rows_Err rs with
          | Some e => deferred_Close (Some e) r rs
          | None => deferred_Close (Some ErrNoRows) r rs
          end
        else
          let '(e, rs) := Rows_Close rs in
          match e with
          | Some e => deferred_Close (Some e) r rs
          | None => deferred_Close None r rs
          end
    end.

(** [return r.rows.GetX(column)] after [next] returned nil. *)
Definition delegate {A} (zero : A)
    (get : Rows S → string → A * option error)
    (r : Row S) (column : string) : outcome ((A * option error) * Row S) :=
  '(e, r) ← next r;
  match e with
  | Some e => Ret ((zero, Some e), r)
  | None =>
      match r_rows r with
      | None => Panic "nil pointer dereference"
      | Some rs => Ret (get rs column, r)
      end
  end.

Definition Row_GetBoolean := delegate false Rows_GetBoolean.
Definition Row_GetInteger := delegate 0%Z Rows_GetInteger.
Definition Row_GetDouble := delegate (S754_zero false) Rows_GetDouble.
Definition Row_GetString := delegate "" Rows_GetString.
Definition Row_GetTime := delegate Time_zero Rows_GetTime.

End SingleRow.

(** ** Recording the calls made on the wrapped stream *)

(** A stream decorated with the list of calls it has received, oldest
    first.  [Err] only reads and is not recorded. *)
Inductive call := CNext (more : bool) | CColumns | CScan | CClose.

Global Instance call_eq_dec : EqDecision call.
Proof. solve_decision. Defined.

Record Logged (S : Type) := mkLogged {
  lg_stream : S;
  lg_calls : list call
}.
Arguments mkLogged {S}.
Arguments lg_stream {S}.
Arguments lg_calls {S}.

Global Program Instance Logged_SqlRows {S} `{SqlRows S} : SqlRows (Logged S) := {|
  sql_Next l :=
    let r := sql_Next (lg_stream l) in
    (r.1, mkLogged r.2 (lg_calls l ++ [CNext r.1]));
  sql_Err l := sql_Err (lg_stream l);
  sql_Columns l := sql_Columns (lg_stream l);
  sql_Scan l dest :=
    let r := sql_Scan (lg_stream l) dest in
    (r.1, mkLogged r.2 (lg_calls l ++ [CScan]));
  sql_Close l :=
    let r := sql_Close (lg_stream l) in
    (r.1, mkLogged r.2 (lg_calls l ++ [CClose]))
|}.
Next Obligation. intros S HS l dest. simpl. apply sql_Scan_length. Qed.

Definition is_advance (c : call) : bool :=
  match c with
  | CNext _ => true
  | _ => false
  end.

(** Number of advance requests that reached the stream. *)
Definition advances (cs : list call) : nat :=
  length (List.filter is_advance cs).

(** ** A reference stream *)

(** A stream that behaves like [database/sql]'s [Rows] over one result
    set: the driver hands out the rows of [d_feed] one by one (an [inr]
    entry is a driver failure), reaching the end or a failure closes the
    stream, and a closed stream yields nothing more. *)
Module Driver.

Record stream := mkStream {
  d_columns : list string;
  d_feed : list (list value + error);
  d_closeerr : option error;
  d_closed : bool;
  d_lasterr : option error;
  d_lastcols : option (list value)
}.

Definition errRowsClosed : error := DriverError "sql: Rows are closed".
Definition errScanBeforeNext : error :=
  DriverError "sql: Scan called without calling Next".
Definition errScanCount : error :=
  DriverError "sql: wrong number of destination arguments in Scan".

(** The stream a successful query returns. *)
Definition query (cols : list string) (feed : list (list value + error))
    (closeerr : option error) : stream :=
  mkStream cols feed closeerr false None None.

Definition Next (s : stream) : bool * stream :=
  if d_closed s then (false, s)
  else
    match d_feed s with
    | [] =>
        (false, mkStream (d_columns s) [] (d_closeerr s) true
                  (d_lasterr s) (d_lastcols s))
    | inl row :: feed =>
        (true, mkStream (d_columns s) feed (d_closeerr s) false
                 (d_lasterr s) (Some row))
    | inr e :: feed =>
        (false, mkStream (d_columns s) feed (d_closeerr s) true
                  (Some e) (d_lastcols s))
    end.

Definition Err (s : stream) : option error := d_lasterr s.

Definition Columns (s : stream) : option (list string) * option error :=
  if d_closed s then
    (None, Some (default errRowsClosed (d_lasterr s)))
  else (Some (d_columns s), None).

Definition Scan (s : stream) (dest : list value)
  : (list value * option error) * stream :=
  match d_lasterr s with
  | Some e => ((dest, Some e), s)
  | None =>
      if d_closed s then ((dest, Some errRowsClosed), s)
      else
        match d_lastcols s with
        | None => ((dest, Some errScanBeforeNext), s)
        | Some row =>
            if decide (length dest = length row) then ((row, None), s)
            else ((dest, Some errScanCount), s)
        end
  end.

Definition Close (s : stream) : option error * stream :=
  if d_closed s then (None, s)
  else
    (d_closeerr s,
     mkStream (d_columns s) (d_feed s) (d_closeerr s) true
       (d_lasterr s) (d_lastcols s)).

Lemma Scan_length s dest : length (Scan s dest).1.1 = length dest.
Proof.
  unfold Scan. destruct (d_lasterr s); [done|].
  destruct (d_closed s); [done|].
  destruct (d_lastcols s) as [row|]; [|done].
  case_decide; simpl; congruence.
Qed.

Global Instance stream_SqlRows : SqlRows stream := {|
  sql_Next := Next;
  sql_Err := Err;
  sql_Columns := Columns;
  sql_Scan := Scan;
  sql_Close := Close;
  sql_Scan_length := Scan_length
|}.

(** The row of the package's test table. *)
Definition people_columns : list string :=
  ["id"; "name"; "married"; "ratio"; "last_modified"].

Definition john_doe : list value :=
  [ VInt KInt64 1; VString "john doe"; VBool true;
    VFloat64 (S754_finite false 7070651414971679 (-51));
    VTime (mkTime 63587300645 0) ].

Definition jane_doe : list value :=
  [ VInt KInt64 2; VString "jane doe"; VBool false;
    VFloat64 (S754_finite false 7070651414971679 (-51));
    VTime (mkTime 63587300646 0) ].

End Driver.


(** ** The wrapped connection handle, [*sql.DB] *)

(** What ksql calls on [database/sql] for connections.  [W] is the state
    of the outside world (drivers, servers), [R] the type of [*sql.DB]
    pointers. *)
Class SqlDB (W R : Type) := {
  sql_Open : string → string → W → (R * option error) * W;
  sql_DB_Close : R → W → option error * W
}.

(** ** The named connection registry *)

(** A [*DB] is the address of a [DB] struct, which holds a [*sql.DB]. *)
Definition addr := nat.

(** The package variable [pool], the [DB] structs allocated so far, and
    the outside world. *)
Record registry (W R : Type) := mkRegistry {
  pool : gmap string addr;
  heap : gmap addr R;
  world : W
}.
Arguments mkRegistry {W R}.
Arguments pool {W R}.
Arguments heap {W R}.
Arguments world {W R}.

(** [sort.Strings]: ascending in the byte-wise order of Go strings. *)
Definition sort_Strings (l : list string) : list string :=
  merge_sort String.le l.

(** [Databases].  [order] is the order in which [range pool] hands out
    the keys, which Go leaves unspecified. *)
Definition Databases (order : list string) : list string :=
  sort_Strings order.

Section Registry.
Context {W R : Type} `{SqlDB W R}.

(** [init] *)
Definition init (w : W) : registry W R := mkRegistry ∅ ∅ w.

(** The key orders [range pool] may produce. *)
Definition range_of (st : registry W R) (order : list string) : Prop :=
  order ≡ₚ elements (dom (pool st)).

Definition Get (name : string) (st : registry W R) : option addr * bool :=
  match pool st !! name with
  | Some db => (Some db, true)
  | None => (None, false)
  end.

(** [pool[name] = &DB{db}; return pool[name], nil] *)
Definition register (name : string) (db : R) (w : W) (st : registry W R)
  : (option addr * option error) * registry W R :=
  let a := fresh (dom (heap st)) in
  ((Some a, None),
   mkRegistry (<[name := a]> (pool st)) (<[a := db]> (heap st)) w).

Definition New (name driver dsn : string) (st : registry W R)
  : (option addr * option error) * registry W R :=
  match pool st !! name with
  | Some _ => ((None, Some ErrDupConnName), st)
  | None =>
      let '((db, err), w) := sql_Open driver dsn (world st) in
      match err with
      | Some e => ((None, Some e), mkRegistry (pool st) (heap st) w)
      | None => register name db w st
      end
  end.

Definition NewWithDB (name : string) (db : R) (st : registry W R)
  : (option addr * option error) * registry W R :=
  match pool st !! name with
  | Some _ => ((None, Some ErrDupConnName), st)
  | None => register name db (world st) st
  end.

(** The body of [Close], over the keys still to be visited. *)
Fixpoint Close_loop (keys : list string) (st : registry W R)
  : outcome (registry W R) :=
  match keys with
  | [] => Ret st
  | key :: keys =>
      match pool st !! key ≫= (heap st !!.) with
      | None => Panic "nil pointer dereference"
      | Some raw =>
          let '(err, w) := sql_DB_Close raw (world st) in
          match err with
          | None =>
              Close_loop keys
                (mkRegistry (delete key (pool st)) (heap st) w)
          | Some _ => Close_loop keys (mkRegistry (pool st) (heap st) w)
          end
      end
  end.

(** [Close]: close all open database connections. *)
Definition Close (order : list string) (st : registry W R)
  : outcome (registry W R) :=
  Close_loop order st.

(** The loop of [DB.Close]: delete the first key bound to [db]. *)
Fixpoint DB_Close_loop (keys : list string) (db : addr)
    (p : gmap string addr) : gmap string addr :=
  match keys with
  | [] => p
  | key :: keys =>
      if decide (p !! key = Some db) then delete key p
      else DB_Close_loop keys db p
  end.

(** [(db *DB) Close] *)
Definition DB_Close (order : list string) (db : addr) (st : registry W R)
  : outcome (option error * registry W R) :=
  match heap st !! db with
  | None => Panic "nil pointer dereference"
  | Some raw =>
      let '(err, w) := sql_DB_Close raw (world st) in
      match err with
      | Some e => Ret (Some e, mkRegistry (pool st) (heap st) w)
      | None =>
          Ret (None,
               mkRegistry (DB_Close_loop order db (pool st)) (heap st) w)
      end
  end.

End Registry.

(** ** Recording the closes asked of the outside world *)

Record LoggedW (W R : Type) := mkLoggedW {
  lw_world : W;
  lw_closes : list (R * option error)
}.
Arguments mkLoggedW {W R}.
Arguments lw_world {W R}.
Arguments lw_closes {W R}.

Global Instance LoggedW_SqlDB {W R} `{SqlDB W R} : SqlDB (LoggedW W R) R := {|
  sql_Open driver dsn l :=
    let r := sql_Open driver dsn (lw_world l) in
    (r.1, mkLoggedW r.2 (lw_closes l));
  sql_DB_Close raw l :=
    let r := sql_DB_Close raw (lw_world l) in
    (r.1, mkLoggedW r.2 (lw_closes l ++ [(raw, r.1)]))
|}.

(** ** A reference outside world *)

(** Connections are numbered as they are opened; only the ["postgres"]
    driver is registered; closing is idempotent and fails for the
    connections listed in [w_stuck]. *)
Module World.

Record t := mkWorld {
  w_next : nat;
  w_stuck : list nat;
  w_closed : list nat
}.

Definition errUnknownDriver : error :=
  DriverError "sql: unknown driver (forgotten import?)".
Definition errStuck : error := DriverError "close: connection busy".

Definition Open (driver dsn : string) (w : t) : (nat * option error) * t :=
  if decide (driver = "postgres") then
    ((w_next w, None), mkWorld (Datatypes.S (w_next w)) (w_stuck w) (w_closed w))
  else ((0, Some errUnknownDriver), w).

Definition DB_Close (c : nat) (w : t) : option error * t :=
  if decide (c ∈ w_closed w) then (None, w)
  else if decide (c ∈ w_stuck w) then (Some errStuck, w)
  else (None, mkWorld (w_next w) (w_stuck w) (c :: w_closed w)).

Global Instance world_SqlDB : SqlDB t nat := {|
  sql_Open := Open;
  sql_DB_Close := DB_Close
|}.

End World.
(** ** Notions used to state the properties *)

(** The snapshot a row gives: each column name is bound to the content
    of the decode target at its index, a later index winning when a name
    occurs twice. *)
Definition row_map (cols : list string) (cells : list value)
  : gmap string value :=
  list_to_map (reverse (zip cols cells)).

(** What holds of every cursor obtained from [newRows] by [Next]: while
    no column list is cached the snapshot is nil or empty; once one is
    cached (and no error is recorded) there is one decode target per
    column and the snapshot binds column names only. *)
Definition Rows_wf {S} (rs : Rows S) : Prop :=
  match rs_columns rs with
  | None => rs_values rs = None ∨ rs_values rs = Some ∅
  | Some cols =>
      rs_err rs = None →
      length (rs_loader rs) = length cols ∧
      ∃ m, rs_values rs = Some m ∧ dom m ⊆ list_to_set cols
  end.

Definition insert_cell (m : gmap string value) (kv : string * value)
  : gmap string value := <[kv.1 := kv.2]> m.


Section Reachability.
Context {S : Type} `{SqlRows S}.

(** The cursors a caller can hold: a new one, advanced and closed any
    number of times. *)
Inductive reachable : Rows S → Prop :=
  | reach_new s : reachable (newRows s)
  | reach_Next rs b rs' :
      reachable rs → Rows_Next rs = Ret (b, rs') → reachable rs'
  | reach_Close rs : reachable rs → reachable (Rows_Close rs).2.

(** The cursors on which no row has ever been positioned: no call of
    [Next] has returned true. *)
Inductive unpositioned : Rows S → Prop :=
  | unpos_new s : unpositioned (newRows s)
  | unpos_Next rs rs' :
      unpositioned rs → Rows_Next rs = Ret (false, rs') → unpositioned rs'
  | unpos_Close rs : unpositioned rs → unpositioned (Rows_Close rs).2.

(** [n] calls of [Next] in a row, with the answers in order. *)
Fixpoint Rows_Next_n (n : nat) (rs : Rows S)
  : outcome (list bool * Rows S) :=
  match n with
  | 0 => Ret ([], rs)
  | Datatypes.S n =>
      '(b, rs) ← Rows_Next rs;
      '(bs, rs) ← Rows_Next_n n rs;
      Ret (b :: bs, rs)
  end.

End Reachability.

(** A cursor that will answer false: an error is recorded or the
    stream has nothing more to give. *)
Definition spent {S} `{SqlRows S} (rs : Rows (Logged S)) : Prop :=
  rs_err rs ≠ None ∨ (sql_Next (lg_stream (rs_Rows rs))).1 = false.

(** The stream keeps answering false once it has answered false, as
    [database/sql] does after the end of the result set, a failure or a
    close. *)
Definition sticky (S : Type) `{SqlRows S} : Prop :=
  ∀ s s' : S, sql_Next s = (false, s') → (sql_Next s').1 = false.

(** ** Sequences of calls on a single-row view *)

Inductive row_op : Type :=
  | OpScan (dest : list value)
  | OpGetBoolean (column : string)
  | OpGetInteger (column : string)
  | OpGetDouble (column : string)
  | OpGetString (column : string)
  | OpGetTime (column : string).

Definition is_scan (op : row_op) : bool :=
  match op with
  | OpScan _ => true
  | _ => false
  end.

Definition is_getter (op : row_op) : bool := negb (is_scan op).

Section RowRuns.
Context {S : Type} `{SqlRows S}.

(** One call, keeping only the view it leaves behind. *)
Definition run_op (r : Row S) (op : row_op) : outcome (Row S) :=
  match op with
  | OpScan dest => '(_, r) ← Row_Scan r dest; Ret r
  | OpGetBoolean c => '(_, r) ← Row_GetBoolean r c; Ret r
  | OpGetInteger c => '(_, r) ← Row_GetInteger r c; Ret r
  | OpGetDouble c => '(_, r) ← Row_GetDouble r c; Ret r
  | OpGetString c => '(_, r) ← Row_GetString r c; Ret r
  | OpGetTime c => '(_, r) ← Row_GetTime r c; Ret r
  end.

Fixpoint run_ops (r : Row S) (ops : list row_op) : outcome (Row S) :=
  match ops with
  | [] => Ret r
  | op :: ops => r ← run_op r op; run_ops r ops
  end.

End RowRuns.

(** The calls the stream of a view has received so far. *)
Definition row_calls {S} (r : Row (Logged S)) : list call :=
  match r_rows r with
  | Some rs => lg_calls (rs_Rows rs)
  | None => []
  end.

(** The number of [Scan] calls in a sequence. *)
Definition scans (ops : list row_op) : nat :=
  length (List.filter is_scan ops).

(** What holds of a view of a successful query after any calls, [n] of
    them [Scan]s: the stream was asked to advance at most once by the
    getters and at most once per [Scan], and unless nothing was called
    yet the last thing it received is a [Close]. *)
Definition view_inv {S} `{SqlRows S} (n : nat) (r : Row (Logged S)) : Prop :=
  r_err r = None ∧
  ∃ rs, r_rows r = Some rs ∧ Rows_wf rs ∧
    advances (lg_calls (rs_Rows rs)) ≤ (if r_next r then 1 else 0) + n ∧
    ((lg_calls (rs_Rows rs) = [] ∧ r_next r = false) ∨
     last (lg_calls (rs_Rows rs)) = Some CClose).

(** ** Well-formed registries *)

(** What holds of every registry obtained from [init] by the package's
    functions: a registered handle is an allocated [DB] struct, and no
    two names share a handle (each registration allocates its own). *)
Definition registry_wf {W R} (st : registry W R) : Prop :=
  (∀ name a, pool st !! name = Some a → is_Some (heap st !! a)) ∧
  (∀ n1 n2 a, pool st !! n1 = Some a → pool st !! n2 = Some a → n1 = n2).

(** The raw connection behind a registered name. *)
Definition raw_of {W R} (st : registry W R) (key : string) : option R :=
  pool st !! key ≫= (heap st !!.).

(** The error recorded by the cursor of a view, if any. *)
Definition cursor_err {S} (r : Row S) : option error :=
  match r_rows r with
  | Some rs => rs_err rs
  | None => None
  end.

(** As long as no advance error is recorded, every advance asked of the
    cursor has reached the stream: one for the getters once the flag is
    set, and one for each of the [n] calls of [Scan]. *)
Definition view_exact {S} (n : nat) (r : Row (Logged S)) : Prop :=
  cursor_err r = None →
  advances (row_calls r) = (if r_next r then 1 else 0) + n.

(** ** Concrete data *)

(** Streams, cursors and registries over the reference stream and the
    reference world, on which the definitions are run. *)
Module Example.

Definition connection_reset : error := DriverError "connection reset".

(** A query matching the one row of the test table. *)
Definition john_query : Driver.stream :=
  Driver.query Driver.people_columns [inl Driver.john_doe] None.

Definition two_rows : Driver.stream :=
  Driver.query Driver.people_columns
    [inl Driver.john_doe; inl Driver.jane_doe] None.

(** A query matching no row. *)
Definition empty_query : Driver.stream :=
  Driver.query Driver.people_columns [] None.

(** A query whose first fetch fails. *)
Definition failing_query : Driver.stream :=
  Driver.query Driver.people_columns [inr connection_reset] None.

(** The cursor left by one [Next]. *)
Definition advanced {S} `{SqlRows S} (rs : Rows S) : Rows S :=
  match Rows_Next rs with
  | Ret (_, rs') => rs'
  | Panic _ => rs
  end.

Definition at_john : Rows Driver.stream := advanced (newRows two_rows).
Definition failed : Rows Driver.stream := advanced (newRows failing_query).

(** Five empty destinations for [Scan]. *)
Definition five : list value := replicate 5 VNil.

(** Views with the calls on their stream recorded. *)
Definition view (s : Driver.stream) : Row (Logged Driver.stream) :=
  QueryRow (Some (mkLogged s []), None).

(** The stream of [john_query] after its row was fetched, and after it
    was closed. *)
Definition john_fetched : Driver.stream :=
  Driver.mkStream Driver.people_columns [] None false None
    (Some Driver.john_doe).
Definition john_closed : Driver.stream :=
  Driver.mkStream Driver.people_columns [] None true None
    (Some Driver.john_doe).

(** The view of [john_query] once a getter has been called. *)
Definition john_cached : Row (Logged Driver.stream) :=
  mkRow None true
    (Some (mkRows
             (mkLogged john_closed [CNext true; CScan; CClose; CClose])
             None (Some Driver.people_columns) Driver.john_doe
             (Some (row_map Driver.people_columns Driver.john_doe)))).

(** A world with one connection already open elsewhere, whose close
    fails; then two registered connections, the first of them stuck
    as well. *)
Definition reg0 : registry (LoggedW World.t nat) nat :=
  init (mkLoggedW (World.mkWorld 1 [1] []) []).
Definition reg1 := (New "master" "postgres" "host=a" reg0).2.
Definition reg2 := (New "replica" "postgres" "host=b" reg1).2.

End Example.

(** ** Query wrappers *)

Section Queries.
Context {S : Type} `{SqlRows S}.

(** [DB.Query], [Stmt.Query] and [Tx.Query]: the two results of the
    wrapped query are passed in; on error nothing is wrapped. *)
Definition Query (raw : S * option error) : option (Rows S) * option error :=
  match raw.2 with
  | Some e => (None, Some e)
  | None => (Some (newRows raw.1), None)
  end.

(** [DB.QueryRow], [Stmt.QueryRow] and [Tx.QueryRow]:
    [rows, err := Query(...); return &Row{rows: rows, err: err}]. *)
Definition Query_Row (raw : S * option error) : Row S :=
  let '(rows, err) := Query raw in
  mkRow err false rows.

End Queries.

(** ** Two calls in a row on one view *)

Section TwoCalls.
Context {S : Type} `{SqlRows S}.

(** [Scan], then a typed getter on the view it leaves; both answers. *)
Definition Scan_then {A} (r : Row S) (dest : list value)
    (get : Row S → string → outcome ((A * option error) * Row S))
    (column : string)
  : outcome ((list value * option error) * (A * option error)) :=
  '(res, r) ← Row_Scan r dest;
  '(g, _) ← get r column;
  Ret (res, g).

(** A typed getter, then [Scan] on the view it leaves; both answers. *)
Definition then_Scan {A} (r : Row S)
    (get : Row S → string → outcome ((A * option error) * Row S))
    (column : string) (dest : list value)
  : outcome ((A * option error) * (list value * option error)) :=
  '(g, r) ← get r column;
  '(res, _) ← Row_Scan r dest;
  Ret (g, res).

(** Two typed getters in a row; both answers. *)
Definition get_twice {A B} (r : Row S)
    (get1 : Row S → string → outcome ((A * option error) * Row S))
    (column1 : string)
    (get2 : Row S → string → outcome ((B * option error) * Row S))
    (column2 : string)
  : outcome ((A * option error) * (B * option error)) :=
  '(g1, r) ← get1 r column1;
  '(g2, _) ← get2 r column2;
  Ret (g1, g2).

(** The answers of the five typed getters, each called on [r]. *)
Definition getters_on (r : Row S) (column : string) :=
  (Row_GetBoolean r column, Row_GetInteger r column, Row_GetDouble r column,
   Row_GetString r column, Row_GetTime r column).

(** All five getters failing with [e] and leaving the view [r]. *)
Definition all_fail (e : error) (r : Row S) :=
  (Ret ((false, Some e), r) : outcome ((bool * option error) * Row S),
   Ret ((0%Z, Some e), r) : outcome ((Z * option error) * Row S),
   Ret ((S754_zero false, Some e), r)
     : outcome ((spec_float * option error) * Row S),
   Ret (("", Some e), r) : outcome ((string * option error) * Row S),
   Ret ((Time_zero, Some e), r) : outcome ((Time * option error) * Row S)).

(** All five getters answering what the cursor [rs] holds and leaving
    the view [r]. *)
Definition all_read (rs : Rows S) (column : string) (r : Row S) :=
  (Ret (Rows_GetBoolean rs column, r), Ret (Rows_GetInteger rs column, r),
   Ret (Rows_GetDouble rs column, r), Ret (Rows_GetString rs column, r),
   Ret (Rows_GetTime rs column, r)).

End TwoCalls.

(** ** More concrete data *)

Module Example2.

(** The stream of [Example.empty_query] once it has reported the end. *)
Definition empty_closed : Driver.stream :=
  Driver.mkStream Driver.people_columns [] None true None None.

(** A query matching one row, on a stream whose close fails. *)
Definition busy : error := DriverError "close: stream busy".
Definition busy_query : Driver.stream :=
  Driver.query Driver.people_columns [inl Driver.john_doe] (Some busy).
Definition busy_fetched : Driver.stream :=
  Driver.mkStream Driver.people_columns [] (Some busy) false None
    (Some Driver.john_doe).
Definition busy_closed : Driver.stream :=
  Driver.mkStream Driver.people_columns [] (Some busy) true None
    (Some Driver.john_doe).

(** The world of [Example.reg2] after the close of ["replica"], and
    after a further connection has been opened. *)
Definition world_closed : LoggedW World.t nat :=
  mkLoggedW (World.mkWorld 3 [1] [2]) [(2, None)].
Definition world_reopened : LoggedW World.t nat :=
  mkLoggedW (World.mkWorld 4 [1] [2]) [(2, None)].

(** What is left of [Example.reg2] after [Close]. *)
Definition reg2_closed : registry (LoggedW World.t nat) nat :=
  match Close ["master"; "replica"] Example.reg2 with
  | Ret st => st
  | Panic _ => Example.reg2
  end.

(** A registry none of whose connections is stuck, and what [Close]
    leaves of it. *)
Definition reg_ok : registry (LoggedW World.t nat) nat :=
  (New "replica" "postgres" "host=b"
     (New "master" "postgres" "host=a"
        (init (mkLoggedW (World.mkWorld 1 [] []) []))).2).2.
Definition reg_ok_closed : registry (LoggedW World.t nat) nat :=
  match Close ["master"; "replica"] reg_ok with
  | Ret st => st
  | Panic _ => reg_ok
  end.

End Example2.
(** * Properties of the buffered row cursor *)

Lemma foldl_insert_cell l : ∀ m,
  foldl insert_cell m l = list_to_map (reverse l) ∪ m.
Proof.
  induction l as [|[c v] l IH]; intros m; simpl.
  - by rewrite (left_id_L ∅ (∪)).
  - rewrite IH, reverse_cons, list_to_map_app. simpl.
    unfold insert_cell at 1; simpl.
    rewrite <-(assoc_L (∪)). f_equal.
    by rewrite insert_empty, <-insert_union_singleton_l.
Qed.

Lemma publish_foldl cols : ∀ i loader m,
  i + length cols ≤ length loader →
  publish cols i loader (Some m)
  = Ret (Some (foldl insert_cell m (zip cols (drop i loader)))).
Proof.
  induction cols as [|c cols IH]; intros i loader m Hlen; simpl in *.
  - done.
  - destruct (loader !! i) as [v|] eqn:Hv.
    + rewrite IH by lia.
      rewrite (drop_S loader v i Hv). done.
    + apply lookup_ge_None in Hv. lia.
Qed.

Lemma dom_row_map cols cells :
  length cols = length cells →
  dom (row_map cols cells) = list_to_set (C := gset string) cols.
Proof.
  intros Hlen. unfold row_map.
  rewrite dom_list_to_map_L, fmap_reverse, reverse_Permutation.
  by rewrite fst_zip by lia.
Qed.

Lemma union_absorb (a m : gmap string value) :
  dom m ⊆ dom a → a ∪ m = a.
Proof.
  intros Hsub. apply map_eq. intros k.
  rewrite lookup_union.
  destruct (a !! k) as [x|] eqn:Ha; [by destruct (m !! k)|].
  destruct (m !! k) as [y|] eqn:Hm; [|done].
  assert (k ∈ dom a) as Hk by (apply Hsub, elem_of_dom; eauto).
  apply elem_of_dom in Hk as [? ?]. congruence.
Qed.

(** Publishing a full row replaces the previous snapshot. *)
Lemma publish_row cols cells m :
  length cells = length cols →
  dom m ⊆ list_to_set cols →
  publish cols 0 cells (Some m) = Ret (Some (row_map cols cells)).
Proof.
  intros Hlen Hdom.
  rewrite publish_foldl by (simpl; lia).
  rewrite drop_0, foldl_insert_cell. do 2 f_equal.
  apply union_absorb. by rewrite dom_row_map.
Qed.

Lemma row_map_lookup cols cells i c v :
  NoDup cols → cols !! i = Some c → cells !! i = Some v →
  row_map cols cells !! c = Some v.
Proof.
  intros Hnd Hc Hv. unfold row_map.
  apply elem_of_list_to_map.
  - rewrite fmap_reverse, reverse_Permutation.
    eapply NoDup_fmap_fst.
    + intros k v1 v2 [j1 H1]%list_elem_of_lookup [j2 H2]%list_elem_of_lookup.
      apply lookup_zip_with_Some in H1 as (a1 & b1 & E1 & Ha1 & Hb1).
      apply lookup_zip_with_Some in H2 as (a2 & b2 & E2 & Ha2 & Hb2).
      simplify_eq.
      assert (j1 = j2) by (eapply NoDup_lookup; eauto). congruence.
    + by apply NoDup_zip_l.
  - apply elem_of_reverse, list_elem_of_lookup. exists i.
    apply lookup_zip_with_Some. eauto.
Qed.

Section CursorFacts.
Context {S : Type} `{SqlRows S}.

Lemma newRows_wf (s : S) : Rows_wf (newRows s).
Proof. by left. Qed.

Lemma Rows_Close_wf (rs : Rows S) : Rows_wf rs → Rows_wf (Rows_Close rs).2.
Proof. unfold Rows_Close. by destruct (sql_Close (rs_Rows rs)). Qed.

(** Scanning into a loader that matches the column list never panics:
    it either records the scan error and leaves the snapshot alone, or
    publishes exactly the scanned row. *)
Lemma Rows_Next_load_spec (rs : Rows S) m :
  length (rs_loader rs) = length (slice (rs_columns rs)) →
  rs_values rs = Some m →
  dom m ⊆ list_to_set (slice (rs_columns rs)) →
  ∃ b rs',
    Rows_Next_load rs = Ret (b, rs') ∧
    rs_columns rs' = rs_columns rs ∧
    length (rs_loader rs') = length (slice (rs_columns rs)) ∧
    if b then
      rs_err rs' = None ∧
      rs_values rs' = Some (row_map (slice (rs_columns rs)) (rs_loader rs'))
    else rs_err rs' ≠ None ∧ rs_values rs' = rs_values rs.
Proof.
  intros Hlen Hm Hdom. unfold Rows_Next_load.
  pose proof (sql_Scan_length (rs_Rows rs) (rs_loader rs)) as Hscan.
  destruct (sql_Scan (rs_Rows rs) (rs_loader rs)) as [[cells e] s].
  simpl in *. destruct e as [e|].
  - exists false. eexists. split; [done|]. simpl.
    split_and!; [done | lia | done | done].
  - rewrite Hm, (publish_row _ cells m) by (done || lia).
    exists true. eexists. split; [done|]. simpl.
    split_and!; [done | lia | done | done].
Qed.

(** [Next] on a well-formed cursor returns, keeps the cursor
    well-formed, and either publishes the new row or leaves the
    snapshot as it was (a nil snapshot may have become an empty map
    when the first scan failed). *)
Lemma Rows_Next_spec (rs : Rows S) :
  Rows_wf rs →
  ∃ b rs',
    Rows_Next rs = Ret (b, rs') ∧ Rows_wf rs' ∧
    if b then
      rs_err rs' = None ∧
      length (rs_loader rs') = length (slice (rs_columns rs')) ∧
      rs_values rs'
      = Some (row_map (slice (rs_columns rs')) (rs_loader rs'))
    else
      rs_values rs' = rs_values rs ∨
      (rs_values rs = None ∧ rs_values rs' = Some ∅ ∧ rs_err rs' ≠ None).
Proof.
  intros Hwf. unfold Rows_Next.
  destruct (rs_err rs) as [e|] eqn:Herr.
  { exists false, rs. auto. }
  destruct (sql_Next (rs_Rows rs)) as [more s]. simpl.
  destruct more; simpl.
  2:{ exists false. eexists. split; [done|]. split; [|by left].
      unfold Rows_wf in *. simpl. by rewrite Herr in Hwf. }
  unfold Rows_wf in Hwf.
  destruct (rs_columns rs) as [cols|] eqn:Hcols.
  - destruct (Hwf Herr) as (Hlen & m & Hm & Hdom).
    edestruct (Rows_Next_load_spec
                 (mkRows s None (Some cols) (rs_loader rs) (rs_values rs)) m)
      as (b & rs' & -> & Hc & Hl & Hb); [done..|].
    exists b, rs'. split; [done|]. simpl in *.
    destruct b.
    + destruct Hb as [He Hv]. rewrite Hc. simpl.
      split; [|done]. unfold Rows_wf. rewrite Hc. intros _.
      split; [done|]. eexists. split; [done|].
      rewrite dom_row_map; [done|]. by rewrite Hl.
    + destruct Hb as [He Hv]. split; [|by left].
      unfold Rows_wf. by rewrite Hc.
  - destruct (sql_Columns s) as [cols e] eqn:Hcolumns. simpl.
    destruct e as [e|].
    { exists false. eexists. split; [done|]. simpl. split; [|by left].
      unfold Rows_wf. simpl. destruct cols; [done|]. done. }
    edestruct (Rows_Next_load_spec
                 (mkRows s None cols
                    (replicate (length (slice cols)) VNil) (Some ∅)) ∅)
      as (b & rs' & -> & Hc & Hl & Hb); simpl.
    { by rewrite length_replicate. }
    { done. }
    { set_solver. }
    exists b, rs'. split; [done|]. simpl in *.
    destruct b.
    + destruct Hb as [He Hv]. rewrite Hc. split; [|done].
      unfold Rows_wf. rewrite Hc. destruct cols as [cols|]; simpl in *.
      * intros _. split; [done|]. eexists. split; [done|].
        rewrite dom_row_map; [done|]. by rewrite Hl.
      * right. by rewrite Hv.
    + destruct Hb as [He Hv]. split.
      * unfold Rows_wf. rewrite Hc. destruct cols; [done|]. by right.
      * destruct Hwf as [Hn|Hn]; [right; by split_and! | left; congruence].
Qed.

(** What a [Next] that returns true has done: the stream advanced, the
    column list is the cached one or else the one the stream reports
    for the row reached, the decode targets (the cached ones, or new nil
    ones sized to the columns) were handed to the stream's [Scan], and
    what it decoded into them is the new content of the loader. *)
Lemma Rows_Next_true (rs rs' : Rows S) :
  Rows_Next rs = Ret (true, rs') →
  ∃ s1 row s2,
    sql_Next (rs_Rows rs) = (true, s1) ∧
    rs_columns rs'
    = match rs_columns rs with
      | Some cols => Some cols
      | None => (sql_Columns s1).1
      end ∧
    sql_Scan s1
      (match rs_columns rs with
       | Some _ => rs_loader rs
       | None => replicate (length (slice (rs_columns rs'))) VNil
       end)
    = ((row, None), s2) ∧
    rs_Rows rs' = s2 ∧ rs_loader rs' = row ∧ rs_err rs' = None.
Proof.
  unfold Rows_Next, Rows_Next_load. intros Hn.
  destruct (rs_err rs) as [e|] eqn:Herr; [by simplify_eq|].
  destruct (sql_Next (rs_Rows rs)) as [[] s1] eqn:Hnext; simpl in Hn;
    [|by simplify_eq].
  exists s1.
  destruct (rs_columns rs) as [cols|] eqn:Hcols; simpl in Hn.
  - destruct (sql_Scan s1 (rs_loader rs)) as [[cells [e|]] s2] eqn:Hscan;
      simpl in Hn; [by simplify_eq|].
    destruct (publish _ _ _ _); simpl in Hn; simplify_eq.
    exists cells, s2. by split_and!.
  - destruct (sql_Columns s1) as [cols [e|]] eqn:Hc; simpl in Hn;
      [by simplify_eq|].
    destruct (sql_Scan s1 _) as [[cells [e|]] s2] eqn:Hscan;
      simpl in Hn; [by simplify_eq|].
    destruct (publish _ _ _ _); simpl in Hn; simplify_eq.
    exists cells, s2. by split_and!.
Qed.

End CursorFacts.

Section CursorClaims.
Context {S : Type} `{SqlRows S}.

Lemma reachable_wf (rs : Rows S) : reachable rs → Rows_wf rs.
Proof.
  induction 1 as [s|rs b rs' _ IH Hn|rs _ IH].
  - apply newRows_wf.
  - destruct (Rows_Next_spec rs IH) as (b' & rs'' & Hn' & Hwf & _).
    congruence.
  - by apply Rows_Close_wf.
Qed.

Lemma unpositioned_reachable (rs : Rows S) : unpositioned rs → reachable rs.
Proof. induction 1; eauto using reachable. Qed.

Lemma unpositioned_values (rs : Rows S) :
  unpositioned rs →
  rs_values rs = None ∨ (rs_values rs = Some ∅ ∧ rs_err rs ≠ None).
Proof.
  induction 1 as [s|rs rs' Hu IH Hn|rs _ IH].
  - by left.
  - apply unpositioned_reachable, reachable_wf in Hu.
    destruct (Rows_Next_spec rs Hu) as (b & rs'' & Hn' & _ & Hb).
    rewrite Hn in Hn'. simplify_eq.
    destruct Hb as [Hv|(Hv1 & Hv2 & He)]; [|by right].
    rewrite Hv. destruct IH as [?|[? He]]; [by left|right].
    split; [done|].
    unfold Rows_Next in Hn.
    destruct (rs_err rs) as [e|] eqn:E; [|done].
    simplify_eq. by rewrite E.
  - unfold Rows_Close. by destruct (sql_Close (rs_Rows rs)).
Qed.

(** C2 (as amended).  A new cursor has a nil snapshot, and as long as
    no advance has returned true the snapshot is nil, or empty with a
    recorded error.  The snapshot is never reset: an advance that
    returns false (end of the stream or an error) leaves it as it was,
    except that a nil snapshot becomes an empty one when the first
    scan fails.  An advance that returns true has moved the stream to
    its next row and had the stream's [Scan] decode that row into the
    decode targets; the snapshot then holds exactly what was decoded by
    this call, one binding per column name, whatever the previous row
    was. *)
Theorem C2_snapshot_follows_last_row (rs : Rows S) :
  reachable rs →
  (∀ s : S, rs_values (newRows s) = None) ∧
  (unpositioned rs →
   rs_values rs = None ∨ (rs_values rs = Some ∅ ∧ rs_err rs ≠ None)) ∧
  ∃ b rs',
    Rows_Next rs = Ret (b, rs') ∧
    if b then
      ∃ s1 row s2,
        sql_Next (rs_Rows rs) = (true, s1) ∧
        rs_columns rs'
        = match rs_columns rs with
          | Some cols => Some cols
          | None => (sql_Columns s1).1
          end ∧
        sql_Scan s1
          (match rs_columns rs with
           | Some _ => rs_loader rs
           | None => replicate (length (slice (rs_columns rs'))) VNil
           end)
        = ((row, None), s2) ∧
        rs_Rows rs' = s2 ∧ rs_loader rs' = row ∧
        length row = length (slice (rs_columns rs')) ∧
        rs_values rs' = Some (row_map (slice (rs_columns rs')) row)
    else
      rs_values rs' = rs_values rs ∨
      (rs_values rs = None ∧ rs_values rs' = Some ∅ ∧ rs_err rs' ≠ None).
Proof.
  intros Hr. split; [done|]. split; [apply unpositioned_values|].
  destruct (Rows_Next_spec rs (reachable_wf rs Hr)) as (b & rs' & Hn & _ & Hb).
  exists b, rs'. split; [done|]. destruct b; [|done].
  destruct Hb as (_ & Hlen & Hvals).
  destruct (Rows_Next_true rs rs' Hn)
    as (s1 & row & s2 & Hs1 & Hcols & Hscan & Hs2 & Hrow & _).
  subst row. exists s1, (rs_loader rs'), s2. by split_and!.
Qed.

(** C3 (as amended).  On a cursor with no pending error, the integer,
    float, string and time getters fail with [ErrNoRows] when the
    snapshot is nil and with [ErrColumnNotFound] when the column is
    not a key of it; otherwise the stored value decides: the integer
    getter returns the number of any signed integer kind, the float
    getter that of either float kind, the string and time getters
    only a string or a time, and every other kind fails with
    [ErrInvalidColumnTypeConversion]. *)
Theorem C3_getters_without_pending_error (rs : Rows S) (column : string) :
  Rows_Err rs = None →
  match rs_values rs with
  | None =>
      Rows_GetInteger rs column = (0%Z, Some ErrNoRows) ∧
      Rows_GetDouble rs column = (S754_zero false, Some ErrNoRows) ∧
      Rows_GetString rs column = ("", Some ErrNoRows) ∧
      Rows_GetTime rs column = (Time_zero, Some ErrNoRows)
  | Some m =>
      match m !! column with
      | None =>
          Rows_GetInteger rs column = (0%Z, Some ErrColumnNotFound) ∧
          Rows_GetDouble rs column
          = (S754_zero false, Some ErrColumnNotFound) ∧
          Rows_GetString rs column = ("", Some ErrColumnNotFound) ∧
          Rows_GetTime rs column = (Time_zero, Some ErrColumnNotFound)
      | Some v =>
          Rows_GetInteger rs column
          = match v with
            | VInt _ n => (n, None)
            | _ => (0%Z, Some ErrInvalidColumnTypeConversion)
            end ∧
          Rows_GetDouble rs column
          = match v with
            | VFloat32 f | VFloat64 f => (f, None)
            | _ => (S754_zero false, Some ErrInvalidColumnTypeConversion)
            end ∧
          Rows_GetString rs column
          = match v with
            | VString s => (s, None)
            | _ => ("", Some ErrInvalidColumnTypeConversion)
            end ∧
          Rows_GetTime rs column
          = match v with
            | VTime t => (t, None)
            | _ => (Time_zero, Some ErrInvalidColumnTypeConversion)
            end
      end
  end.
Proof.
  intros Herr.
  unfold Rows_GetInteger, Rows_GetDouble, Rows_GetString, Rows_GetTime,
    validateRows.
  rewrite Herr. destruct (rs_values rs) as [m|]; [|done]. simpl.
  destruct (m !! column) as [v|]; [|done]. simpl.
  by destruct v.
Qed.

(** C4.  On a cursor on which no row has ever been positioned,
    [GetBoolean] answers [ErrInvalidColumnTypeConversion] for every
    column name: it only asserts the kind of the (absent) value. *)
Theorem C4_GetBoolean_unpositioned (rs : Rows S) (column : string) :
  unpositioned rs →
  Rows_GetBoolean rs column = (false, Some ErrInvalidColumnTypeConversion).
Proof.
  intros Hu. unfold Rows_GetBoolean.
  destruct (unpositioned_values rs Hu) as [->|[-> _]]; [done|].
  simpl. by rewrite lookup_empty.
Qed.

(** C10.  When the cursor has a pending error, the stream's own error
    or else the error recorded by [Next], the integer, float, string
    and time getters return that error, whether or not a row is
    positioned and whether or not the column exists. *)
Theorem C10_pending_error_first (rs : Rows S) (column : string) (e : error) :
  Rows_Err rs = Some e →
  (sql_Err (rs_Rows rs) = Some e ∨
   (sql_Err (rs_Rows rs) = None ∧ rs_err rs = Some e)) ∧
  Rows_GetInteger rs column = (0%Z, Some e) ∧
  Rows_GetDouble rs column = (S754_zero false, Some e) ∧
  Rows_GetString rs column = ("", Some e) ∧
  Rows_GetTime rs column = (Time_zero, Some e).
Proof.
  intros Herr.
  unfold Rows_GetInteger, Rows_GetDouble, Rows_GetString, Rows_GetTime,
    validateRows.
  rewrite Herr. split; [|done].
  unfold Rows_Err in Herr.
  destruct (sql_Err (rs_Rows rs)); [left; congruence|right].
  split; [done|]. by destruct (rs_err rs).
Qed.

End CursorClaims.

(** ** Advancing a spent cursor *)

Section Spent.
Context {S : Type} `{SqlRows S}.

(** Why [Next] can answer false: an error was already recorded, an
    error is recorded by this call, or the stream had no more rows. *)
Lemma Rows_Next_false (rs rs' : Rows S) :
  Rows_Next rs = Ret (false, rs') →
  (rs_err rs ≠ None ∧ rs' = rs) ∨
  (rs_err rs = None ∧ rs_err rs' ≠ None) ∨
  (rs_err rs = None ∧
   ∃ s, sql_Next (rs_Rows rs) = (false, s) ∧
        rs' = mkRows s None (rs_columns rs) (rs_loader rs) (rs_values rs)).
Proof.
  unfold Rows_Next, Rows_Next_load. intros Hn.
  destruct (rs_err rs) as [e|] eqn:Herr.
  { left. by simplify_eq. }
  right.
  destruct (sql_Next (rs_Rows rs)) as [[] s] eqn:Hnext; simpl in Hn.
  2:{ right. split; [done|]. exists s. by simplify_eq. }
  left. split; [done|].
  destruct (rs_columns rs); simpl in Hn.
  - destruct (sql_Scan s (rs_loader rs)) as [[cells [e|]] s2]; simpl in Hn.
    + by simplify_eq.
    + destruct (publish _ _ _ _); simpl in Hn; simplify_eq.
  - destruct (sql_Columns s) as [cols [e|]]; simpl in Hn.
    + by simplify_eq.
    + destruct (sql_Scan s _) as [[cells [e|]] s2]; simpl in Hn.
      * by simplify_eq.
      * destruct (publish _ _ _ _); simpl in Hn; simplify_eq.
Qed.

End Spent.

Section SpentLogged.
Context {S : Type} `{SqlRows S}.

Lemma Rows_Next_false_spent (rs rs' : Rows (Logged S)) :
  sticky S → Rows_Next rs = Ret (false, rs') → spent rs'.
Proof.
  intros Hst Hn.
  destruct (Rows_Next_false rs rs' Hn)
    as [[He ->]|[[_ He]|(He & s & Hs & ->)]]; [by left..|].
  right. simpl in *.
  destruct (sql_Next (lg_stream (rs_Rows rs))) as [b s1] eqn:Hs1.
  simpl in Hs. simplify_eq. simpl. by eapply Hst.
Qed.

Lemma spent_Next (rs : Rows (Logged S)) :
  sticky S → spent rs →
  ∃ rs', Rows_Next rs = Ret (false, rs') ∧ spent rs' ∧
    rs_values rs' = rs_values rs ∧
    (lg_calls (rs_Rows rs') = lg_calls (rs_Rows rs) ∨
     lg_calls (rs_Rows rs') = lg_calls (rs_Rows rs) ++ [CNext false]).
Proof.
  intros Hst Hsp.
  assert (∃ rs', Rows_Next rs = Ret (false, rs') ∧
            rs_values rs' = rs_values rs ∧
            (lg_calls (rs_Rows rs') = lg_calls (rs_Rows rs) ∨
             lg_calls (rs_Rows rs') = lg_calls (rs_Rows rs) ++ [CNext false]))
    as (rs' & Hn & Hv & Hc).
  { unfold Rows_Next. destruct (rs_err rs) as [e|] eqn:Herr.
    { exists rs. auto. }
    destruct Hsp as [?|Hf]; [done|]. simpl.
    destruct (sql_Next (lg_stream (rs_Rows rs))) as [b s1].
    simpl in *. subst b. simpl. eexists. split; [done|]. simpl. auto. }
  exists rs'. split_and!; try done. by eapply Rows_Next_false_spent.
Qed.

Lemma spent_Next_n (n : nat) : ∀ rs : Rows (Logged S),
  sticky S → spent rs →
  ∃ rs' k, Rows_Next_n n rs = Ret (replicate n false, rs') ∧ k ≤ n ∧
    rs_values rs' = rs_values rs ∧
    lg_calls (rs_Rows rs')
    = lg_calls (rs_Rows rs) ++ replicate k (CNext false).
Proof.
  induction n as [|n IH]; intros rs Hst Hsp; simpl.
  - exists rs, 0. simpl. by rewrite app_nil_r.
  - destruct (spent_Next rs Hst Hsp) as (rs1 & -> & Hsp1 & Hv1 & Hc1). simpl.
    destruct (IH rs1 Hst Hsp1) as (rs2 & k & -> & Hk & Hv2 & Hc2). simpl.
    destruct Hc1 as [Hc1|Hc1]; rewrite Hc1 in Hc2.
    + exists rs2, k. split_and!; [done | lia | congruence | done].
    + exists rs2, (Datatypes.S k).
      split_and!; [done | lia | congruence |].
      by rewrite Hc2, <-(assoc_L (++)).
Qed.

(** C6.  [Next] answers false at once, touching nothing, when an
    error is already recorded.  Over a stream that keeps answering
    false once it has done so, a [Next] that answered false (end of
    the stream or failure) is followed only by [Next]s that answer
    false: none of them panics, fetches columns or scans, the stream
    is at most asked again whether there is a row, and the snapshot
    stays as it is. *)
Theorem C6_Next_stays_false (rs : Rows (Logged S)) :
  sticky S →
  (rs_err rs ≠ None → Rows_Next rs = Ret (false, rs)) ∧
  (∀ rs', Rows_Next rs = Ret (false, rs') →
     ∀ n, ∃ rs'' k,
       Rows_Next_n n rs' = Ret (replicate n false, rs'') ∧ k ≤ n ∧
       rs_values rs'' = rs_values rs' ∧
       lg_calls (rs_Rows rs'')
       = lg_calls (rs_Rows rs') ++ replicate k (CNext false)).
Proof.
  intros Hst. split.
  - intros He. unfold Rows_Next. by destruct (rs_err rs).
  - intros rs' Hn n. apply spent_Next_n; [done|].
    by eapply Rows_Next_false_spent.
Qed.

End SpentLogged.

(** * Properties of the single-row view *)

Lemma advances_app (a b : list call) :
  advances (a ++ b) = advances a + advances b.
Proof. unfold advances. by rewrite List.filter_app, length_app. Qed.

Section RowTrace.
Context {S : Type} `{SqlRows S}.

(** One [Next] asks the stream to advance at most once, and never
    closes it. *)
Lemma Rows_Next_calls (rs rs' : Rows (Logged S)) (b : bool) :
  Rows_Next rs = Ret (b, rs') →
  ∃ tr, lg_calls (rs_Rows rs') = lg_calls (rs_Rows rs) ++ tr ∧
        advances tr ≤ 1.
Proof.
  unfold Rows_Next, Rows_Next_load. intros Hn.
  assert (∀ tr, tr ∈ [[]; [CNext false]; [CNext true]; [CNext true; CScan]] →
            advances tr ≤ 1) as Hadv.
  { intros tr Htr. repeat (apply elem_of_cons in Htr as [->|Htr]);
      [cbv; lia..|]. by apply elem_of_nil in Htr. }
  destruct (rs_err rs) as [e|].
  { simplify_eq. exists []. rewrite app_nil_r. split; [done|].
    apply Hadv. set_solver. }
  simpl in Hn.
  destruct (sql_Next (lg_stream (rs_Rows rs))) as [[] s]; simpl in Hn.
  2:{ simplify_eq. exists [CNext false]. split; [done|].
      apply Hadv. set_solver. }
  destruct (rs_columns rs); simpl in Hn.
  - destruct (sql_Scan s (rs_loader rs)) as [[cells [e|]] s2]; simpl in Hn.
    + simplify_eq. simpl. exists [CNext true; CScan].
      rewrite <-(assoc_L (++)). split; [done|]. apply Hadv. set_solver.
    + destruct (publish _ _ _ _); simpl in Hn; simplify_eq.
      simpl. exists [CNext true; CScan].
      rewrite <-(assoc_L (++)). split; [done|]. apply Hadv. set_solver.
  - destruct (sql_Columns s) as [cols [e|]]; simpl in Hn.
    + simplify_eq. exists [CNext true]. split; [done|].
      apply Hadv. set_solver.
    + destruct (sql_Scan s _) as [[cells [e|]] s2]; simpl in Hn.
      * simplify_eq. simpl. exists [CNext true; CScan].
        rewrite <-(assoc_L (++)). split; [done|]. apply Hadv. set_solver.
      * destruct (publish _ _ _ _); simpl in Hn; simplify_eq.
        simpl. exists [CNext true; CScan].
        rewrite <-(assoc_L (++)). split; [done|]. apply Hadv. set_solver.
Qed.

Lemma Rows_Close_calls (rs : Rows (Logged S)) :
  lg_calls (rs_Rows (Rows_Close rs).2) = lg_calls (rs_Rows rs) ++ [CClose].
Proof. done. Qed.

Lemma Rows_Scan_calls (rs : Rows (Logged S)) dest :
  lg_calls (rs_Rows (Rows_Scan rs dest).2) = lg_calls (rs_Rows rs) ++ [CScan].
Proof. done. Qed.

Lemma Rows_Scan_wf (rs : Rows (Logged S)) dest :
  Rows_wf rs → Rows_wf (Rows_Scan rs dest).2.
Proof. done. Qed.

End RowTrace.

Section RowSteps.
Context {S : Type} `{SqlRows S}.

(** The deferred close: whatever is returned, the stream receives one
    more [Close]. *)
Lemma deferred_Close_spec {A} (ret : A) (r : Row (Logged S)) rs :
  Rows_wf rs →
  ∃ rs', deferred_Close ret r rs
         = Ret (ret, mkRow (r_err r) (r_next r) (Some rs')) ∧
    Rows_wf rs' ∧
    lg_calls (rs_Rows rs') = lg_calls (rs_Rows rs) ++ [CClose].
Proof.
  intros Hwf. exists (Rows_Close rs).2. split; [done|].
  split; [by apply Rows_Close_wf | apply Rows_Close_calls].
Qed.

Local Ltac count_advances :=
  rewrite ?advances_app;
  repeat match goal with
    | |- context [advances (?c :: ?l)] =>
        let n := eval vm_compute in (advances (c :: l)) in
        change (advances (c :: l)) with n
    end;
  lia.

(** Closes a case: [Hd] describes the deferred close, [tr'] is what
    the stream received before the last [Close]. *)
Local Ltac finish Hd tr' :=
  let rs' := fresh "rs'" in let Hw := fresh "Hw" in
  let Hl := fresh "Hl" in
  destruct Hd as (rs' & -> & Hw & Hl);
  eexists _, rs', tr'; split; [reflexivity|]; split; [exact Hw|];
  split; [rewrite Hl;
          match goal with Hc : lg_calls _ = _ |- _ => rewrite Hc end;
          by rewrite <-!(assoc_L (++))
         | count_advances].

(** With the flag unset, [next] sets it, asks the cursor to advance
    once and closes it on every path. *)
Lemma next_first (r : Row (Logged S)) (rs : Rows (Logged S)) :
  r_rows r = Some rs → r_next r = false → Rows_wf rs →
  ∃ e rs' tr,
    next r = Ret (e, mkRow (r_err r) true (Some rs')) ∧ Rows_wf rs' ∧
    lg_calls (rs_Rows rs') = lg_calls (rs_Rows rs) ++ tr ++ [CClose] ∧
    advances tr ≤ 1.
Proof.
  intros Hrows Hflag Hwf. unfold next. rewrite Hflag. cbn [r_rows r_err].
  rewrite Hrows.
  destruct (Rows_Next_spec rs Hwf) as (b & rs1 & Hn & Hwf1 & _).
  destruct (Rows_Next_calls rs rs1 b Hn) as (tr & Hc & Ha).
  rewrite Hn. cbn [mbind outcome_bind negb]. destruct b.
  - pose proof (Rows_Close_wf rs1 Hwf1) as Hwf2.
    pose proof (Rows_Close_calls rs1) as Hc2.
    destruct (Rows_Close rs1) as [e rs2]. cbn [snd] in Hwf2, Hc2.
    rewrite Hc in Hc2.
    destruct e as [e|].
    + pose proof (deferred_Close_spec (Some e)
                    (mkRow (r_err r) true (Some rs)) rs2 Hwf2) as Hd.
      clear Hc. finish Hd (tr ++ [CClose]).
    + pose proof (deferred_Close_spec (@None error)
                    (mkRow (r_err r) true (Some rs)) rs2 Hwf2) as Hd.
      clear Hc. finish Hd (tr ++ [CClose]).
  - destruct (Rows_Err rs1) as [e|].
    + pose proof (deferred_Close_spec (Some e)
                    (mkRow (r_err r) true (Some rs)) rs1 Hwf1) as Hd.
      finish Hd tr.
    + pose proof (deferred_Close_spec (Some ErrNoRows)
                    (mkRow (r_err r) true (Some rs)) rs1 Hwf1) as Hd.
      finish Hd tr.
Qed.

(** [Scan] on a view without construction error asks the cursor to
    advance, whatever the flag says, and closes it on every path. *)
Lemma Row_Scan_step (r : Row (Logged S)) (rs : Rows (Logged S)) dest :
  r_err r = None → r_rows r = Some rs → Rows_wf rs →
  ∃ res rs' tr,
    Row_Scan r dest = Ret (res, mkRow (r_err r) (r_next r) (Some rs')) ∧
    Rows_wf rs' ∧
    lg_calls (rs_Rows rs') = lg_calls (rs_Rows rs) ++ tr ++ [CClose] ∧
    advances tr ≤ 1.
Proof.
  intros Herr Hrows Hwf.
  destruct r as [re rn rr]. simpl in Herr, Hrows. subst re rr.
  unfold Row_Scan. cbn [r_err r_rows r_next].
  set (r := mkRow None rn (Some rs)).
  destruct (Rows_Next_spec rs Hwf) as (b & rs1 & Hn & Hwf1 & _).
  destruct (Rows_Next_calls rs rs1 b Hn) as (tr & Hc & Ha).
  rewrite Hn. cbn [mbind outcome_bind negb]. destruct b.
  - pose proof (Rows_Scan_wf rs1 dest Hwf1) as Hwf2.
    pose proof (Rows_Scan_calls rs1 dest) as Hc2.
    destruct (Rows_Scan rs1 dest) as [[dest' e] rs2]. cbn [snd] in Hwf2, Hc2.
    rewrite Hc in Hc2. clear Hc.
    destruct e as [e|].
    { pose proof (deferred_Close_spec (dest', Some e) r rs2 Hwf2) as Hd.
      finish Hd (tr ++ [CScan]). }
    pose proof (Rows_Close_wf rs2 Hwf2) as Hwf3.
    pose proof (Rows_Close_calls rs2) as Hc3.
    destruct (Rows_Close rs2) as [e rs3]. cbn [snd] in Hwf3, Hc3.
    rewrite Hc2 in Hc3. clear Hc2.
    destruct e as [e|].
    + pose proof (deferred_Close_spec (dest', Some e) r rs3 Hwf3) as Hd.
      finish Hd (tr ++ [CScan; CClose]).
    + pose proof (deferred_Close_spec (dest', @None error) r rs3 Hwf3) as Hd.
      finish Hd (tr ++ [CScan; CClose]).
  - destruct (Rows_Err rs1) as [e|].
    + pose proof (deferred_Close_spec (dest, Some e) r rs1 Hwf1) as Hd.
      finish Hd tr.
    + pose proof (deferred_Close_spec (dest, Some ErrNoRows) r rs1 Hwf1)
        as Hd.
      finish Hd tr.
Qed.

(** A typed getter advances and closes through [next] when the flag
    is unset, and touches nothing when it is set. *)
Lemma delegate_step {A} (zero : A) get (r : Row (Logged S)) rs column :
  r_rows r = Some rs → Rows_wf rs →
  ∃ res rs',
    delegate zero get r column
    = Ret (res, mkRow (r_err r) true (Some rs')) ∧
    Rows_wf rs' ∧
    if r_next r then rs' = rs
    else ∃ tr,
      lg_calls (rs_Rows rs') = lg_calls (rs_Rows rs) ++ tr ++ [CClose] ∧
      advances tr ≤ 1.
Proof.
  intros Hrows Hwf. unfold delegate.
  destruct (r_next r) eqn:Hflag.
  - unfold next. rewrite Hflag. cbn [mbind outcome_bind]. rewrite Hrows.
    exists (get rs column), rs. split; [|done].
    destruct r; simpl in *. by subst.
  - destruct (next_first r rs Hrows Hflag Hwf)
      as (e & rs' & tr & -> & Hwf' & Hc & Ha).
    cbn [mbind outcome_bind]. destruct e as [e|]; cbn [r_rows];
      eexists _, rs'; (split; [done|]); eauto.
Qed.

End RowSteps.

Section RowExact.
Context {S : Type} `{SqlRows S}.

(** A [Next] that leaves no error recorded found none recorded and
    asked the stream to advance exactly once. *)
Lemma Rows_Next_exact (rs rs' : Rows (Logged S)) (b : bool) :
  Rows_Next rs = Ret (b, rs') → rs_err rs' = None →
  rs_err rs = None ∧
  advances (lg_calls (rs_Rows rs')) = advances (lg_calls (rs_Rows rs)) + 1.
Proof.
  unfold Rows_Next, Rows_Next_load. intros Hn He.
  destruct (rs_err rs) as [e|] eqn:Herr.
  { simplify_eq; congruence. }
  split; [done|]. simpl in Hn.
  destruct (sql_Next (lg_stream (rs_Rows rs))) as [[] s]; simpl in Hn.
  2:{ simplify_eq. simpl. by rewrite advances_app. }
  destruct (rs_columns rs); simpl in Hn.
  - destruct (sql_Scan s (rs_loader rs)) as [[cells [e|]] s2]; simpl in Hn.
    + by simplify_eq.
    + destruct (publish _ _ _ _); simpl in Hn; simplify_eq.
      simpl. rewrite !advances_app. cbn. lia.
  - destruct (sql_Columns s) as [cols [e|]]; simpl in Hn.
    + by simplify_eq.
    + destruct (sql_Scan s _) as [[cells [e|]] s2]; simpl in Hn.
      * by simplify_eq.
      * destruct (publish _ _ _ _); simpl in Hn; simplify_eq.
        simpl. rewrite !advances_app. cbn. lia.
Qed.

Lemma Rows_Close_keeps (rs : Rows (Logged S)) :
  rs_err (Rows_Close rs).2 = rs_err rs ∧
  advances (lg_calls (rs_Rows (Rows_Close rs).2))
  = advances (lg_calls (rs_Rows rs)).
Proof.
  split; [done|]. rewrite Rows_Close_calls, advances_app. cbn. lia.
Qed.

Lemma Rows_Scan_keeps (rs : Rows (Logged S)) dest :
  rs_err (Rows_Scan rs dest).2 = rs_err rs ∧
  advances (lg_calls (rs_Rows (Rows_Scan rs dest).2))
  = advances (lg_calls (rs_Rows rs)).
Proof.
  split; [done|]. rewrite Rows_Scan_calls, advances_app. cbn. lia.
Qed.

(** With the flag unset, a [next] that leaves no error recorded has
    asked the stream to advance exactly once. *)
Lemma next_exact (r r' : Row (Logged S)) (rs rs' : Rows (Logged S)) e :
  r_rows r = Some rs → r_next r = false →
  next r = Ret (e, r') → r_rows r' = Some rs' → rs_err rs' = None →
  rs_err rs = None ∧
  advances (lg_calls (rs_Rows rs')) = advances (lg_calls (rs_Rows rs)) + 1.
Proof.
  intros Hrows Hflag Hn Hrows' He. unfold next in Hn.
  rewrite Hflag in Hn. cbn [r_rows r_err] in Hn. rewrite Hrows in Hn.
  destruct (Rows_Next rs) as [[b rs1]|] eqn:Hnext; [|done].
  cbn [mbind outcome_bind] in Hn.
  assert (∀ (ret : option error) rsK,
    deferred_Close ret (mkRow (r_err r) true (Some rs)) rsK = Ret (e, r') →
    rs_err rsK = rs_err rs1 →
    advances (lg_calls (rs_Rows rsK)) = advances (lg_calls (rs_Rows rs1)) →
    rs_err rs = None ∧
    advances (lg_calls (rs_Rows rs')) = advances (lg_calls (rs_Rows rs)) + 1)
    as Hfin.
  { intros ret rsK Hd HeK HaK. unfold deferred_Close in Hd.
    injection Hd as _ <-. cbn [r_rows] in Hrows'. injection Hrows' as <-.
    simpl in He |- *. rewrite HeK in He. rewrite advances_app, HaK.
    destruct (Rows_Next_exact rs rs1 b Hnext He) as [Hnone ->].
    split; [done|]. cbn. lia. }
  destruct b; cbn [negb] in Hn.
  - destruct (Rows_Close_keeps rs1) as [Hce Hca].
    destruct (Rows_Close rs1) as [ec rs2]. cbn [snd] in Hce, Hca.
    destruct ec; cbv beta iota in Hn; exact (Hfin _ rs2 Hn Hce Hca).
  - destruct (Rows_Err rs1); exact (Hfin _ rs1 Hn eq_refl eq_refl).
Qed.

(** A [Scan] that leaves no error recorded has asked the stream to
    advance exactly once, whatever the flag was. *)
Lemma Row_Scan_exact (r r' : Row (Logged S)) (rs rs' : Rows (Logged S))
    dest res :
  r_err r = None → r_rows r = Some rs →
  Row_Scan r dest = Ret (res, r') → r_rows r' = Some rs' →
  rs_err rs' = None →
  rs_err rs = None ∧
  advances (lg_calls (rs_Rows rs')) = advances (lg_calls (rs_Rows rs)) + 1.
Proof.
  intros Herr Hrows Hn Hrows' He. unfold Row_Scan in Hn.
  rewrite Herr, Hrows in Hn.
  destruct (Rows_Next rs) as [[b rs1]|] eqn:Hnext; [|done].
  cbn [mbind outcome_bind] in Hn.
  assert (∀ (ret : list value * option error) rsK,
    deferred_Close ret r rsK = Ret (res, r') →
    rs_err rsK = rs_err rs1 →
    advances (lg_calls (rs_Rows rsK)) = advances (lg_calls (rs_Rows rs1)) →
    rs_err rs = None ∧
    advances (lg_calls (rs_Rows rs')) = advances (lg_calls (rs_Rows rs)) + 1)
    as Hfin.
  { intros ret rsK Hd HeK HaK. unfold deferred_Close in Hd.
    injection Hd as _ <-. cbn [r_rows] in Hrows'. injection Hrows' as <-.
    simpl in He |- *. rewrite HeK in He. rewrite advances_app, HaK.
    destruct (Rows_Next_exact rs rs1 b Hnext He) as [Hnone ->].
    split; [done|]. cbn. lia. }
  destruct b; cbn [negb] in Hn.
  - destruct (Rows_Scan_keeps rs1 dest) as [Hse Hsa].
    destruct (Rows_Scan rs1 dest) as [[dest' es] rs2]. cbn [snd] in Hse, Hsa.
    destruct es; cbv beta iota in Hn; [exact (Hfin _ rs2 Hn Hse Hsa)|].
    destruct (Rows_Close_keeps rs2) as [Hce Hca].
    destruct (Rows_Close rs2) as [ec rs3]. cbn [snd] in Hce, Hca.
    rewrite Hse in Hce. rewrite Hsa in Hca.
    destruct ec; cbv beta iota in Hn; exact (Hfin _ rs3 Hn Hce Hca).
  - destruct (Rows_Err rs1); exact (Hfin _ rs1 Hn eq_refl eq_refl).
Qed.

(** A typed getter that leaves no error recorded has asked the stream
    to advance exactly once if the flag was unset, and has left the
    view alone if it was set. *)
Lemma delegate_exact {A} (zero : A) get (r r' : Row (Logged S))
    (rs rs' : Rows (Logged S)) column res :
  r_rows r = Some rs →
  delegate zero get r column = Ret (res, r') →
  r_rows r' = Some rs' → rs_err rs' = None →
  if r_next r then r' = r
  else rs_err rs = None ∧
       advances (lg_calls (rs_Rows rs'))
       = advances (lg_calls (rs_Rows rs)) + 1.
Proof.
  intros Hrows Hd Hrows' He. unfold delegate in Hd.
  destruct (next r) as [[e r1]|] eqn:Hnext; [|done].
  cbn [mbind outcome_bind] in Hd.
  assert (r1 = r') as ->.
  { destruct e; [by simplify_eq|]. destruct (r_rows r1); by simplify_eq. }
  destruct (r_next r) eqn:Hflag.
  - unfold next in Hnext. rewrite Hflag in Hnext. by simplify_eq.
  - by eapply next_exact.
Qed.

End RowExact.

Section RowClaims.
Context {S : Type} `{SqlRows S}.

Lemma view_inv_new (s : S) :
  view_inv 0 (QueryRow (Some (mkLogged s []), None)).
Proof.
  split; [done|]. eexists. split; [done|]. split; [apply newRows_wf|].
  simpl. split; [cbv; lia | by left].
Qed.

Lemma run_op_inv (n : nat) (r : Row (Logged S)) (op : row_op) :
  view_inv n r →
  ∃ r', run_op r op = Ret r' ∧
    view_inv (n + (if is_scan op then 1 else 0)) r' ∧
    r_next r' = r_next r || is_getter op ∧
    last (row_calls r') = Some CClose.
Proof.
  intros (Herr & rs & Hrows & Hwf & Hadv & Hlast).
  assert (∀ A (zero : A) get column,
    ∃ r', ('(_, r) ← delegate zero get r column; Ret r) = Ret r' ∧
      view_inv (n + 0) r' ∧ r_next r' = true ∧
      last (row_calls r') = Some CClose) as Hget.
  { intros A zero get column.
    destruct (delegate_step zero get r rs column Hrows Hwf)
      as (res & rs' & -> & Hwf' & Hcase).
    cbn [mbind outcome_bind]. eexists. split; [done|].
    unfold view_inv, row_calls. cbn [r_err r_rows r_next].
    destruct (r_next r).
    - subst rs'. destruct Hlast as [[_ ?]|Hlast]; [done|].
      split_and!; [done| |done..]. exists rs. split_and!; auto with lia.
    - destruct Hcase as (tr & Hc & Ha).
      assert (last (lg_calls (rs_Rows rs')) = Some CClose) as Hl.
      { by rewrite Hc, (assoc_L (++)), last_snoc. }
      split_and!; [done| |done..]. exists rs'. split_and!; auto.
      rewrite Hc, !advances_app. cbn. lia. }
  assert (∀ A (zero : A) get column,
    ∃ r', ('(_, r) ← delegate zero get r column; Ret r) = Ret r' ∧
      view_inv (n + 0) r' ∧ r_next r' = r_next r || true ∧
      last (row_calls r') = Some CClose) as Hget'.
  { intros A zero get column.
    destruct (Hget A zero get column) as (r' & Hr & Hi & Hf & Hl).
    exists r'. by rewrite orb_true_r. }
  destruct op as [dest|c|c|c|c|c];
    [|exact (Hget' _ false Rows_GetBoolean c)
     |exact (Hget' _ 0%Z Rows_GetInteger c)
     |exact (Hget' _ (S754_zero false) Rows_GetDouble c)
     |exact (Hget' _ "" Rows_GetString c)
     |exact (Hget' _ Time_zero Rows_GetTime c)].
  destruct (Row_Scan_step r rs dest Herr Hrows Hwf)
    as (res & rs' & tr & Hs & Hwf' & Hc & Ha).
  cbn [run_op]. rewrite Hs. cbn [mbind outcome_bind is_scan is_getter negb].
  eexists. split; [done|].
  assert (last (lg_calls (rs_Rows rs')) = Some CClose) as Hl.
  { by rewrite Hc, (assoc_L (++)), last_snoc. }
  unfold view_inv, row_calls. cbn [r_err r_rows r_next].
  rewrite orb_false_r. split_and!; [done| |done..].
  exists rs'. split_and!; auto.
  rewrite Hc, !advances_app. cbn. lia.
Qed.

Lemma run_ops_inv (ops : list row_op) : ∀ (n : nat) (r : Row (Logged S)),
  view_inv n r →
  ∃ r', run_ops r ops = Ret r' ∧ view_inv (n + scans ops) r' ∧
    r_next r' = r_next r || existsb is_getter ops ∧
    (ops ≠ [] → last (row_calls r') = Some CClose).
Proof.
  induction ops as [|op ops IH]; intros n r Hinv.
  - exists r. rewrite Nat.add_0_r, orb_false_r. by split_and!.
  - destruct (run_op_inv n r op Hinv) as (r1 & Hr1 & Hi1 & Hf1 & Hl1).
    destruct (IH _ r1 Hi1) as (r2 & Hr2 & Hi2 & Hf2 & Hl2).
    exists r2. cbn [run_ops]. rewrite Hr1. cbn [mbind outcome_bind].
    split; [done|]. split_and!.
    + replace (n + scans (op :: ops))
        with (n + (if is_scan op then 1 else 0) + scans ops); [done|].
      unfold scans. simpl. destruct (is_scan op); simpl; lia.
    + rewrite Hf2, Hf1. simpl. by rewrite orb_assoc.
    + intros _. destruct ops as [|op' ops']; [|by apply Hl2].
      simpl in Hr2. by simplify_eq.
Qed.

Lemma run_op_exact (n : nat) (r r' : Row (Logged S)) (op : row_op) :
  view_inv n r → run_op r op = Ret r' → view_exact n r →
  view_exact (n + (if is_scan op then 1 else 0)) r'.
Proof.
  intros Hinv Hrun Hex.
  destruct (run_op_inv n r op Hinv) as (r2 & Hrun2 & Hinv2 & Hflag & _).
  rewrite Hrun in Hrun2. injection Hrun2 as <-.
  destruct Hinv as (Herr & rs & Hrows & _).
  destruct Hinv2 as (_ & rs' & Hrows' & _).
  unfold view_exact, cursor_err, row_calls in *.
  rewrite Hrows in Hex. rewrite Hrows'. intros He.
  assert (∀ A (zero : A) get column,
    ('(_, r) ← delegate zero get r column; Ret r) = Ret r' →
    r_next r' = r_next r || true →
    advances (lg_calls (rs_Rows rs')) = (if r_next r' then 1 else 0) + (n + 0))
    as Hget.
  { intros A zero get column Hd Hf.
    destruct (delegate zero get r column) as [[res r3]|] eqn:Hdel; [|done].
    cbn [mbind outcome_bind] in Hd. injection Hd as ->.
    pose proof (delegate_exact zero get r r' rs rs' column res
                  Hrows Hdel Hrows' He) as Hcase.
    rewrite Hf, orb_true_r. destruct (r_next r).
    - subst r'. rewrite Hrows in Hrows'. injection Hrows' as <-.
      rewrite (Hex He). lia.
    - destruct Hcase as [Hnone ->]. rewrite (Hex Hnone). lia. }
  destruct op as [dest|c|c|c|c|c];
    [|exact (Hget _ false Rows_GetBoolean c Hrun Hflag)
     |exact (Hget _ 0%Z Rows_GetInteger c Hrun Hflag)
     |exact (Hget _ (S754_zero false) Rows_GetDouble c Hrun Hflag)
     |exact (Hget _ "" Rows_GetString c Hrun Hflag)
     |exact (Hget _ Time_zero Rows_GetTime c Hrun Hflag)].
  cbn [run_op] in Hrun.
  destruct (Row_Scan r dest) as [[res r3]|] eqn:Hscan; [|done].
  cbn [mbind outcome_bind] in Hrun. injection Hrun as ->.
  destruct (Row_Scan_exact r r' rs rs' dest res Herr Hrows Hscan Hrows' He)
    as [Hnone ->].
  rewrite Hflag. cbn [is_scan is_getter negb]. rewrite orb_false_r.
  rewrite (Hex Hnone). lia.
Qed.

Lemma run_ops_exact (ops : list row_op) : ∀ (n : nat) (r r' : Row (Logged S)),
  view_inv n r → view_exact n r → run_ops r ops = Ret r' →
  view_exact (n + scans ops) r'.
Proof.
  induction ops as [|op ops IH]; intros n r r' Hinv Hex Hrun.
  - simpl in Hrun. injection Hrun as <-. by rewrite Nat.add_0_r.
  - cbn [run_ops] in Hrun.
    destruct (run_op_inv n r op Hinv) as (r1 & Hr1 & Hi1 & _).
    rewrite Hr1 in Hrun. cbn [mbind outcome_bind] in Hrun.
    pose proof (run_op_exact n r r1 op Hinv Hr1 Hex) as Hex1.
    pose proof (IH _ r1 r' Hi1 Hex1 Hrun) as Hfin.
    replace (n + scans (op :: ops))
      with (n + (if is_scan op then 1 else 0) + scans ops); [done|].
    unfold scans. simpl. destruct (is_scan op); simpl; lia.
Qed.

(** C1 (as amended).  On the view of a successful query no sequence
    of calls panics.  The one-shot flag is set by the typed getters and
    by nothing else: after any calls it is set exactly when one of them
    was a getter, so [Scan] neither sets it nor is stopped by it.  The
    getters together ask the stream to advance at most once, and each
    [Scan] asks once more: as long as the cursor has recorded no advance
    error, the stream has been asked exactly once per [Scan], plus once
    if a getter was called (and never more than that in any case).
    After any call the last thing the stream has received is a [Close],
    on every path: row found, no row, or error. *)
Theorem C1_advance_once_then_closed (s : S) (ops : list row_op) :
  ∃ r,
    run_ops (QueryRow (Some (mkLogged s []), None)) ops = Ret r ∧
    r_err r = None ∧
    r_next r = existsb is_getter ops ∧
    advances (row_calls r)
    ≤ (if existsb is_getter ops then 1 else 0) + scans ops ∧
    (cursor_err r = None →
     advances (row_calls r)
     = (if existsb is_getter ops then 1 else 0) + scans ops) ∧
    (scans ops = 0 → advances (row_calls r) ≤ 1) ∧
    (ops ≠ [] → last (row_calls r) = Some CClose).
Proof.
  destruct (run_ops_inv ops 0 _ (view_inv_new s))
    as (r & Hr & Hinv & Hf & Hl).
  assert (view_exact (0 + scans ops) r) as Hex.
  { eapply run_ops_exact; [apply view_inv_new | | exact Hr].
    intros _. reflexivity. }
  destruct Hinv as (Herr & rs & Hrows & Hwf & Hadv & _).
  exists r. split; [done|]. split; [done|]. split; [exact Hf|].
  unfold view_exact in Hex. rewrite Hf in Hex.
  unfold row_calls in *. rewrite Hrows in *. rewrite Hf in Hadv.
  simpl in Hadv, Hex. split_and!; [done|done| |done].
  intros Hz. rewrite Hz in Hadv. destruct (existsb is_getter ops); lia.
Qed.

End RowClaims.

Section SingleRowQuery.
Context {S : Type} `{SqlRows S}.

(** The first [Next] of a new cursor when the stream has no row. *)
Lemma Rows_Next_no_row (s : S) tr :
  (sql_Next s).1 = false →
  Rows_Next (newRows (mkLogged s tr))
  = Ret (false, newRows (mkLogged (sql_Next s).2 (tr ++ [CNext false]))).
Proof.
  intros Hn. unfold Rows_Next, newRows. simpl.
  destruct (sql_Next s) as [b s1]. simpl in *. by subst b.
Qed.

(** The first [Next] of a new cursor when the stream has a row, names
    its columns and decodes it. *)
Lemma Rows_Next_one_row (s s1 s2 : S) tr cols row :
  sql_Next s = (true, s1) →
  sql_Columns s1 = (cols, None) →
  sql_Scan s1 (replicate (length (slice cols)) VNil) = ((row, None), s2) →
  Rows_Next (newRows (mkLogged s tr))
  = Ret (true, mkRows (mkLogged s2 (tr ++ [CNext true; CScan])) None cols
                 row (Some (row_map (slice cols) row))).
Proof.
  intros Hn Hc Hs. unfold Rows_Next, Rows_Next_load, newRows. simpl.
  rewrite Hn. simpl. rewrite Hc. simpl. rewrite Hs. simpl.
  pose proof (sql_Scan_length s1 (replicate (length (slice cols)) VNil))
    as Hlen.
  rewrite Hs, length_replicate in Hlen. simpl in Hlen.
  rewrite (publish_row _ row ∅) by (done || set_solver). simpl.
  by rewrite <-(assoc_L (++)).
Qed.

(** C5.  On the view of a query whose stream has no row, the first
    typed getter, and [Scan], fail with the stream's error when it
    has one and with [ErrNoRows] otherwise.  On the view of a query
    whose stream has a row that is decoded and closed without error,
    the first getter and every later one answer what the cursor's own
    getter reads in one and the same cached snapshot, leaving the
    view as it is; the stream has been asked to advance once; and the
    getter of the matching kind returns the value of the column. *)
Theorem C5_no_row_or_cached_row (s : S) :
  let r0 := QueryRow (Some (mkLogged s []), None) in
  ((sql_Next s).1 = false →
   let e := default ErrNoRows (sql_Err (sql_Next s).2) in
   ∀ column dest,
     (∃ r, Row_GetBoolean r0 column = Ret ((false, Some e), r)) ∧
     (∃ r, Row_GetInteger r0 column = Ret ((0%Z, Some e), r)) ∧
     (∃ r, Row_GetDouble r0 column = Ret ((S754_zero false, Some e), r)) ∧
     (∃ r, Row_GetString r0 column = Ret (("", Some e), r)) ∧
     (∃ r, Row_GetTime r0 column = Ret ((Time_zero, Some e), r)) ∧
     (∃ r, Row_Scan r0 dest = Ret ((dest, Some e), r))) ∧
  (∀ s1 cols row s2 s3 e4 s4,
     sql_Next s = (true, s1) →
     sql_Columns s1 = (cols, None) →
     sql_Scan s1 (replicate (length (slice cols)) VNil) = ((row, None), s2) →
     sql_Close s2 = (None, s3) →
     sql_Close s3 = (e4, s4) →
     sql_Err s4 = None →
     let rs1 := mkRows (mkLogged s4 [CNext true; CScan; CClose; CClose])
                  None cols row (Some (row_map (slice cols) row)) in
     let r1 := mkRow None true (Some rs1) in
     advances (row_calls r1) = 1 ∧
     ∀ column,
       (∀ r, r = r0 ∨ r = r1 →
          Row_GetBoolean r column = Ret (Rows_GetBoolean rs1 column, r1) ∧
          Row_GetInteger r column = Ret (Rows_GetInteger rs1 column, r1) ∧
          Row_GetDouble r column = Ret (Rows_GetDouble rs1 column, r1) ∧
          Row_GetString r column = Ret (Rows_GetString rs1 column, r1) ∧
          Row_GetTime r column = Ret (Rows_GetTime rs1 column, r1)) ∧
       ∀ i v,
         NoDup (slice cols) → slice cols !! i = Some column →
         row !! i = Some v →
         (∀ b, v = VBool b → Rows_GetBoolean rs1 column = (b, None)) ∧
         (∀ k n, v = VInt k n → Rows_GetInteger rs1 column = (n, None)) ∧
         (∀ f, v = VFloat32 f ∨ v = VFloat64 f →
               Rows_GetDouble rs1 column = (f, None)) ∧
         (∀ x, v = VString x → Rows_GetString rs1 column = (x, None)) ∧
         (∀ t, v = VTime t → Rows_GetTime rs1 column = (t, None))).
Proof.
  intros r0. split.
  - intros Hn e column dest.
    pose proof (Rows_Next_no_row s [] Hn) as Hnext.
    assert (∀ A (zero : A) get,
      ∃ r, delegate zero get r0 column = Ret ((zero, Some e), r)) as Hget.
    { intros A zero get. unfold delegate, next, r0, QueryRow.
      cbn [r_next r_rows r_err fst snd fmap option_fmap option_map].
      rewrite Hnext. cbn [mbind outcome_bind negb].
      unfold Rows_Err, newRows. cbn [rs_Rows rs_err sql_Err Logged_SqlRows
        lg_stream]. subst e.
      destruct (sql_Err (sql_Next s).2); simpl; eauto. }
    split_and!; try apply Hget.
    unfold Row_Scan, r0, QueryRow.
    cbn [r_next r_rows r_err fst snd fmap option_fmap option_map].
    rewrite Hnext. cbn [mbind outcome_bind negb].
    unfold Rows_Err, newRows. cbn [rs_Rows rs_err sql_Err Logged_SqlRows
      lg_stream]. subst e.
    destruct (sql_Err (sql_Next s).2); simpl; eauto.
  - intros s1 cols row s2 s3 e4 s4 Hn Hc Hs Hc1 Hc2 He rs1 r1.
    split; [done|]. intros column.
    pose proof (Rows_Next_one_row s s1 s2 [] cols row Hn Hc Hs) as Hnext.
    assert (next r0 = Ret (None, r1)) as Hfirst.
    { unfold next, r0, QueryRow.
      cbn [r_next r_rows r_err fst snd fmap option_fmap option_map].
      rewrite Hnext. cbn [mbind outcome_bind negb].
      unfold Rows_Close, deferred_Close. simpl. rewrite Hc1. simpl.
      unfold Rows_Close. simpl. by rewrite Hc2. }
    assert (next r1 = Ret (None, r1)) as Hlater by done.
    split.
    + intros r [->| ->];
        unfold Row_GetBoolean, Row_GetInteger, Row_GetDouble,
          Row_GetString, Row_GetTime, delegate;
        rewrite ?Hfirst, ?Hlater; by split_and!.
    + intros i v Hnd Hi Hv.
      pose proof (row_map_lookup _ _ _ _ _ Hnd Hi Hv) as Hm.
      unfold Rows_GetBoolean, Rows_GetInteger, Rows_GetDouble,
        Rows_GetString, Rows_GetTime, validateRows, Rows_Err, rs1.
      cbn [rs_Rows rs_err rs_values sql_Err Logged_SqlRows lg_stream
           map_index].
      rewrite He, Hm. simpl.
      split_and!; intros; try destruct_or!; by subst.
Qed.

End SingleRowQuery.

(** * Properties of the connection registry *)

Section SortedNames.

Lemma Databases_Sorted (order : list string) :
  Sorted String.le (Databases order).
Proof. apply (Sorted_merge_sort String.le). Qed.

Lemma Databases_Permutation (order : list string) :
  Databases order ≡ₚ order.
Proof. apply (merge_sort_Permutation String.le). Qed.

(** The answer does not depend on the order [range] happens to use. *)
Lemma Databases_order_irrelevant (order order' : list string) :
  order ≡ₚ order' → Databases order = Databases order'.
Proof.
  intros Hp. apply (Sorted_unique String.le); try apply Databases_Sorted.
  by rewrite !Databases_Permutation.
Qed.

End SortedNames.

Section RegistryFacts.
Context {W R : Type} `{SqlDB W R}.

Lemma init_wf (w : W) : registry_wf (init w : registry W R).
Proof. split; intros *; simpl; by rewrite lookup_empty. Qed.

Lemma register_wf (name : string) (db : R) (w : W) (st : registry W R) :
  registry_wf st → pool st !! name = None →
  registry_wf (register name db w st).2.
Proof.
  intros [Hheap Hinj] Hfree. unfold register, registry_wf.
  cbn [pool heap world snd].
  pose proof (is_fresh (dom (heap st))) as Hfresh.
  set (a := fresh (dom (heap st))) in *.
  assert (∀ n, pool st !! n ≠ Some a) as Hnew.
  { intros n Hn. apply Hheap, elem_of_dom in Hn. done. }
  split.
  - intros n b. rewrite lookup_insert. case_decide; intros Hn.
    + simplify_eq. rewrite lookup_insert_eq. eauto.
    + destruct (Hheap n b Hn) as [x Hx].
      rewrite lookup_insert_ne; [eauto|]. intros ->. by eapply Hnew.
  - intros n1 n2 b. rewrite !lookup_insert.
    repeat case_decide; intros Hn1 Hn2; simplify_eq; try done.
    + by destruct (Hnew n2).
    + by destruct (Hnew n1).
    + by eapply Hinj.
Qed.

Lemma New_wf name driver dsn (st : registry W R) :
  registry_wf st → registry_wf (New name driver dsn st).2.
Proof.
  intros Hwf. unfold New. destruct (pool st !! name) eqn:Hp; [done|].
  destruct (sql_Open driver dsn (world st)) as [[db [e|]] w].
  - done.
  - by apply register_wf.
Qed.

Lemma NewWithDB_wf name db (st : registry W R) :
  registry_wf st → registry_wf (NewWithDB name db st).2.
Proof.
  intros Hwf. unfold NewWithDB. destruct (pool st !! name) eqn:Hp; [done|].
  by apply register_wf.
Qed.

Lemma range_of_elem (st : registry W R) order name :
  range_of st order → name ∈ order ↔ is_Some (pool st !! name).
Proof.
  intros Hr. unfold range_of in Hr.
  by rewrite Hr, elem_of_elements, elem_of_dom.
Qed.

Lemma range_of_NoDup (st : registry W R) order :
  range_of st order → NoDup order.
Proof. intros ->. apply NoDup_elements. Qed.

(** Under [registry_wf], the loop of [DB.Close] removes exactly the
    name the handle is registered under. *)
Lemma DB_Close_loop_delete (keys : list string) db (p : gmap string addr)
    name :
  (∀ n1 n2 a, p !! n1 = Some a → p !! n2 = Some a → n1 = n2) →
  p !! name = Some db → name ∈ keys →
  DB_Close_loop keys db p = delete name p.
Proof.
  intros Hinj Hname. induction keys as [|key keys IH]; intros Hin.
  - by apply elem_of_nil in Hin.
  - simpl. case_decide as Hkey.
    + by rewrite (Hinj key name db).
    + apply elem_of_cons in Hin as [->|Hin]; [done|]. by apply IH.
Qed.

(** C7.  [New] and [NewWithDB] called with a name that is already
    registered return [ErrDupConnName] and no handle, and leave the
    registry as it is: the pool, and with it the entry of that name,
    the allocated handles and the outside world, which is not even
    asked to open a connection. *)
Theorem C7_duplicate_name_rejected (st : registry W R)
    (name driver dsn : string) (db : R) :
  is_Some (pool st !! name) →
  New name driver dsn st = ((None, Some ErrDupConnName), st) ∧
  NewWithDB name db st = ((None, Some ErrDupConnName), st).
Proof.
  intros [a Ha]. unfold New, NewWithDB. by rewrite Ha.
Qed.

(** C8.  [Databases] returns the registered names, each once, in
    ascending byte-wise order, whatever order the map is ranged in;
    the name of a handle that [DB.Close] closed successfully, and any
    name that [Close] removed, is not in the list returned
    afterwards. *)
Theorem C8_Databases_sorted_and_current (st : registry W R)
    (order : list string) :
  registry_wf st → range_of st order →
  Sorted String.le (Databases order) ∧
  NoDup (Databases order) ∧
  (∀ name, name ∈ Databases order ↔ is_Some (pool st !! name)) ∧
  (∀ order1 name db st' order',
     range_of st order1 → pool st !! name = Some db →
     DB_Close order1 db st = Ret (None, st') →
     range_of st' order' → name ∉ Databases order') ∧
  (∀ order1 st' order' name,
     range_of st order1 → Close order1 st = Ret st' →
     range_of st' order' → pool st' !! name = None →
     name ∉ Databases order').
Proof.
  intros [Hheap Hinj] Hr.
  assert (∀ (st0 : registry W R) order0 name, range_of st0 order0 →
            name ∈ Databases order0 ↔ is_Some (pool st0 !! name)) as Hmem.
  { intros st0 order0 name Hr0.
    by rewrite Databases_Permutation, (range_of_elem st0). }
  split_and!.
  - apply Databases_Sorted.
  - rewrite Databases_Permutation. by eapply range_of_NoDup.
  - intros name. by apply Hmem.
  - intros order1 name db st' order' Hr1 Hname Hclose Hr'.
    rewrite (Hmem st' order' name Hr'). unfold DB_Close in Hclose.
    destruct (heap st !! db) as [raw|]; [|done].
    destruct (sql_DB_Close raw (world st)) as [[e|] w]; simplify_eq.
    simpl. rewrite (DB_Close_loop_delete order1 db (pool st) name);
      [|done..|].
    + rewrite lookup_delete_eq. by intros [? ?].
    + apply (range_of_elem st); eauto.
  - intros order1 st' order' name _ _ Hr' Hgone.
    rewrite (Hmem st' order' name Hr'), Hgone. by intros [? ?].
Qed.

End RegistryFacts.

Section CloseAll.
Context {W R : Type} `{SqlDB W R}.

(** The loop of [Close] visits each key once: it closes the handle,
    and deletes the key exactly when that close returned nil. *)
Lemma Close_loop_spec (keys : list string) :
  ∀ st : registry (LoggedW W R) R,
    NoDup keys →
    (∀ key, key ∈ keys → is_Some (raw_of st key)) →
    ∃ st' raws results,
      Close_loop keys st = Ret st' ∧
      heap st' = heap st ∧
      Forall2 (λ key raw, raw_of st key = Some raw) keys raws ∧
      length results = length keys ∧
      lw_closes (world st') = lw_closes (world st) ++ zip raws results ∧
      (∀ i key res,
         keys !! i = Some key → results !! i = Some res →
         pool st' !! key
         = match res with
           | None => None
           | Some _ => pool st !! key
           end) ∧
      (∀ name, name ∉ keys → pool st' !! name = pool st !! name).
Proof.
  induction keys as [|key keys IH]; intros st Hnd Hraw.
  - exists st, [], []. simpl. rewrite app_nil_r.
    by split_and!.
  - apply NoDup_cons in Hnd as [Hkey Hnd].
    destruct (Hraw key) as [raw Hr]; [set_solver|].
    cbn [Close_loop]. unfold raw_of in Hr. rewrite Hr.
    cbn [sql_DB_Close LoggedW_SqlDB].
    set (res := (sql_DB_Close raw (lw_world (world st))).1).
    set (w := (sql_DB_Close raw (lw_world (world st))).2).
    set (st1 := mkRegistry
                  (match res with
                   | None => delete key (pool st)
                   | Some _ => pool st
                   end)
                  (heap st)
                  (mkLoggedW w (lw_closes (world st) ++ [(raw, res)]))).
    assert (∀ k, k ≠ key → pool st1 !! k = pool st !! k) as Hother.
    { intros k Hk. subst st1. simpl. destruct res; [done|].
      by rewrite lookup_delete_ne. }
    assert (pool st1 !! key
            = match res with None => None | Some _ => pool st !! key end)
      as Hthis.
    { subst st1. simpl. destruct res; [done|]. by rewrite lookup_delete_eq. }
    destruct (IH st1 Hnd) as (st' & raws & results & Hrun & Hheap & Hraws
                              & Hlen & Hlog & Hres & Hrest).
    { intros k Hk. unfold raw_of. rewrite Hother; [|set_solver].
      apply Hraw. set_solver. }
    exists st', (raw :: raws), (res :: results).
    split_and!.
    + destruct res; exact Hrun.
    + by rewrite Hheap.
    + constructor; [done|].
      apply Forall2_same_length_lookup in Hraws as [Hl Hraws].
      apply Forall2_same_length_lookup. split; [done|].
      intros i k r Hk Hr'. specialize (Hraws i k r Hk Hr').
      unfold raw_of in *. rewrite Hother in Hraws; [done|].
      intros ->. apply Hkey. by eapply list_elem_of_lookup_2.
    + simpl. by rewrite Hlen.
    + rewrite Hlog. subst st1. simpl. by rewrite <-(assoc_L (++)).
    + intros [|i] k r Hk Hr'; simpl in *; simplify_eq.
      * by rewrite Hrest, Hthis.
      * rewrite (Hres i k r Hk Hr'). destruct r; [|done].
        apply Hother. intros ->. apply Hkey.
        by eapply list_elem_of_lookup_2.
    + intros name Hname. rewrite Hrest by set_solver.
      apply Hother. set_solver.
Qed.

(** C9.  [Close] returns without panic after asking every registered
    handle to close, each once and in the order the map is ranged;
    a name whose handle failed to close keeps its entry, a name whose
    handle closed is deleted, and nothing else changes in the pool. *)
Theorem C9_Close_keeps_failures (st : registry (LoggedW W R) R)
    (order : list string) :
  registry_wf st → range_of st order →
  ∃ st' raws results,
    Close order st = Ret st' ∧
    Forall2 (λ key raw, raw_of st key = Some raw) order raws ∧
    length results = length order ∧
    lw_closes (world st') = lw_closes (world st) ++ zip raws results ∧
    (∀ i key res,
       order !! i = Some key → results !! i = Some res →
       pool st' !! key
       = match res with
         | None => None
         | Some _ => pool st !! key
         end) ∧
    (∀ name, pool st !! name = None → pool st' !! name = None).
Proof.
  intros [Hheap _] Hr.
  destruct (Close_loop_spec order st) as (st' & raws & results & Hrun & _
                                          & Hraws & Hlen & Hlog & Hres & Hrest).
  { by eapply range_of_NoDup. }
  { intros key [a Ha]%(range_of_elem st); [|done].
    unfold raw_of. rewrite Ha. simpl. by eapply Hheap. }
  exists st', raws, results. split_and!; try done.
  intros name Hname. rewrite Hrest; [done|].
  rewrite (range_of_elem st); [|done]. rewrite Hname. by intros [? ?].
Qed.

End CloseAll.

(** * The properties on concrete data *)

Lemma Driver_sticky : sticky Driver.stream.
Proof.
  intros s s' Hn. simpl in *. unfold Driver.Next in *.
  destruct (Driver.d_closed s) eqn:Hc.
  - simplify_eq. by rewrite Hc.
  - destruct (Driver.d_feed s) as [|[row|e] feed]; by simplify_eq.
Qed.

(** C1, as stated, fails: after a [Scan] that found the row, a getter
    asks the stream to advance a second time. *)
Lemma C1_counterexample :
  (r ← run_ops (Example.view Example.john_query)
         [OpScan Example.five; OpGetString "name"];
   Ret (row_calls r, advances (row_calls r)))
  = Ret ([CNext true; CScan; CScan; CClose; CClose; CNext false; CClose], 2)
  ∧ ¬ 2 ≤ 1.
Proof. split; [reflexivity | lia]. Qed.

(** C2, as stated, fails: after the stream is exhausted the snapshot
    still holds the last row. *)
Lemma C2_counterexample :
  ('(b1, rs1) ← Rows_Next (newRows Example.john_query);
   '(b2, rs2) ← Rows_Next rs1;
   Ret (b1, b2, Rows_Err rs2, rs_values rs2))
  = Ret (true, false, None,
         Some (row_map Driver.people_columns Driver.john_doe))
  ∧ Some (row_map Driver.people_columns Driver.john_doe) ≠ None.
Proof. split; [reflexivity | done]. Qed.

(** C3, as stated, fails: with no row positioned and a stream error
    pending, the integer getter returns that error, not [ErrNoRows]. *)
Lemma C3_counterexample :
  Rows_Next (newRows Example.failing_query) = Ret (false, Example.failed) ∧
  rs_values Example.failed = None ∧
  Rows_GetInteger Example.failed "id"
  = (0%Z, Some Example.connection_reset) ∧
  Some Example.connection_reset ≠ Some ErrNoRows.
Proof. split_and!; [reflexivity..|done]. Qed.

Lemma C2_witness :
  reachable Example.at_john ∧
  ∃ b rs',
    Rows_Next Example.at_john = Ret (b, rs') ∧
    if b then
      ∃ s1 row s2,
        sql_Next (rs_Rows Example.at_john) = (true, s1) ∧
        rs_columns rs'
        = match rs_columns Example.at_john with
          | Some cols => Some cols
          | None => (sql_Columns s1).1
          end ∧
        sql_Scan s1
          (match rs_columns Example.at_john with
           | Some _ => rs_loader Example.at_john
           | None => replicate (length (slice (rs_columns rs'))) VNil
           end)
        = ((row, None), s2) ∧
        rs_Rows rs' = s2 ∧ rs_loader rs' = row ∧
        length row = length (slice (rs_columns rs')) ∧
        rs_values rs' = Some (row_map (slice (rs_columns rs')) row)
    else
      rs_values rs' = rs_values Example.at_john ∨
      (rs_values Example.at_john = None ∧ rs_values rs' = Some ∅ ∧
       rs_err rs' ≠ None).
Proof.
  assert (reachable Example.at_john) as Hr.
  { apply (reach_Next (newRows Example.two_rows) true);
      [apply reach_new | reflexivity]. }
  split; [exact Hr|].
  exact (proj2 (proj2 (C2_snapshot_follows_last_row Example.at_john Hr))).
Defined.

(** On the two-row stream the second advance replaces the first row:
    the getters then read the second row's values. *)
Example second_row_replaces_first :
  ('(_, rs1) ← Rows_Next (newRows Example.two_rows);
   '(b2, rs2) ← Rows_Next rs1;
   Ret (Rows_GetInteger rs1 "id", Rows_GetString rs1 "name",
        b2, Rows_GetInteger rs2 "id", Rows_GetString rs2 "name",
        rs_values rs2))
  = Ret ((1%Z, None), ("john doe", None), true,
         (2%Z, None), ("jane doe", None),
         Some (row_map Driver.people_columns Driver.jane_doe)).
Proof. reflexivity. Qed.

Lemma C3_witness :
  Rows_Err Example.at_john = None ∧
  Rows_GetInteger Example.at_john "id" = (1%Z, None) ∧
  Rows_GetString Example.at_john "ratio"
  = ("", Some ErrInvalidColumnTypeConversion).
Proof.
  split; [reflexivity|].
  pose proof (C3_getters_without_pending_error Example.at_john "id" eq_refl)
    as Hid.
  pose proof (C3_getters_without_pending_error Example.at_john "ratio" eq_refl)
    as Hratio.
  split; [exact (proj1 Hid) | exact (proj1 (proj2 (proj2 Hratio)))].
Defined.

Lemma C4_witness :
  unpositioned Example.failed ∧
  Rows_GetBoolean Example.failed "married"
  = (false, Some ErrInvalidColumnTypeConversion).
Proof.
  assert (unpositioned Example.failed) as Hu.
  { apply (unpos_Next (newRows Example.failing_query));
      [apply unpos_new | reflexivity]. }
  split; [exact Hu|]. by apply C4_GetBoolean_unpositioned.
Defined.

Lemma C10_witness :
  Rows_Err Example.failed = Some Example.connection_reset ∧
  Rows_GetInteger Example.failed "id" = (0%Z, Some Example.connection_reset) ∧
  Rows_GetString Example.failed "name" = ("", Some Example.connection_reset).
Proof.
  split; [reflexivity|].
  split.
  - exact (proj1 (proj2 (C10_pending_error_first Example.failed "id"
                           Example.connection_reset eq_refl))).
  - exact (proj1 (proj2 (proj2 (proj2
             (C10_pending_error_first Example.failed "name"
                Example.connection_reset eq_refl))))).
Defined.

Lemma C6_witness :
  sticky Driver.stream ∧
  ∀ rs',
    Rows_Next (newRows (mkLogged Example.empty_query [])) = Ret (false, rs') →
    ∀ n, ∃ rs'' k,
      Rows_Next_n n rs' = Ret (replicate n false, rs'') ∧ k ≤ n ∧
      rs_values rs'' = rs_values rs' ∧
      lg_calls (rs_Rows rs'')
      = lg_calls (rs_Rows rs') ++ replicate k (CNext false).
Proof.
  split; [exact Driver_sticky|].
  exact (proj2 (C6_Next_stays_false
                  (newRows (mkLogged Example.empty_query [])) Driver_sticky)).
Defined.

Lemma C5_witness :
  (sql_Next Example.empty_query).1 = false ∧
  (∃ r, Row_GetInteger (Example.view Example.empty_query) "id"
        = Ret ((0%Z, Some ErrNoRows), r)) ∧
  (∃ r, Row_Scan (Example.view Example.failing_query) Example.five
        = Ret ((Example.five, Some Example.connection_reset), r)) ∧
  sql_Next Example.john_query = (true, Example.john_fetched) ∧
  sql_Columns Example.john_fetched = (Some Driver.people_columns, None) ∧
  sql_Scan Example.john_fetched (replicate 5 VNil)
  = ((Driver.john_doe, None), Example.john_fetched) ∧
  sql_Close Example.john_fetched = (None, Example.john_closed) ∧
  sql_Close Example.john_closed = (None, Example.john_closed) ∧
  sql_Err Example.john_closed = None ∧
  ∀ r, r = Example.view Example.john_query ∨ r = Example.john_cached →
       Row_GetString r "name" = Ret (("john doe", None), Example.john_cached).
Proof.
  split; [reflexivity|].
  split.
  { exact (proj1 (proj2 (proj1 (C5_no_row_or_cached_row Example.empty_query)
                           eq_refl "id" Example.five))). }
  split.
  { exact (proj2 (proj2 (proj2 (proj2 (proj2
             (proj1 (C5_no_row_or_cached_row Example.failing_query)
                eq_refl "id" Example.five)))))). }
  split_and!; [reflexivity..|].
  intros r Hr.
  pose proof (proj2 (C5_no_row_or_cached_row Example.john_query)
                Example.john_fetched (Some Driver.people_columns)
                Driver.john_doe Example.john_fetched Example.john_closed
                None Example.john_closed
                eq_refl eq_refl eq_refl eq_refl eq_refl eq_refl) as [_ Hc].
  exact (proj1 (proj2 (proj2 (proj2 (proj1 (Hc "name") r Hr))))).
Defined.

Lemma C7_witness :
  is_Some (pool Example.reg1 !! "master") ∧
  New "master" "postgres" "host=c" Example.reg1
  = ((None, Some ErrDupConnName), Example.reg1) ∧
  NewWithDB "master" 7 Example.reg1
  = ((None, Some ErrDupConnName), Example.reg1).
Proof.
  assert (is_Some (pool Example.reg1 !! "master")) as Hs.
  { exists 0. reflexivity. }
  split; [exact Hs|].
  exact (C7_duplicate_name_rejected Example.reg1 "master" "postgres" "host=c"
           7 Hs).
Defined.

Lemma Example_reg2_wf : registry_wf Example.reg2.
Proof. apply New_wf, New_wf, init_wf. Qed.

Lemma Example_reg2_range : range_of Example.reg2 ["master"; "replica"].
Proof. unfold range_of. reflexivity. Qed.

Lemma C8_witness :
  registry_wf Example.reg2 ∧
  range_of Example.reg2 ["master"; "replica"] ∧
  Sorted String.le (Databases ["master"; "replica"]) ∧
  NoDup (Databases ["master"; "replica"]) ∧
  (∀ name, name ∈ Databases ["master"; "replica"]
           ↔ is_Some (pool Example.reg2 !! name)).
Proof.
  split; [exact Example_reg2_wf|]. split; [exact Example_reg2_range|].
  pose proof (C8_Databases_sorted_and_current Example.reg2
                ["master"; "replica"] Example_reg2_wf Example_reg2_range)
    as (Hs & Hn & Hm & _).
  exact (conj Hs (conj Hn Hm)).
Defined.

Lemma C9_witness :
  registry_wf Example.reg2 ∧
  range_of Example.reg2 ["master"; "replica"] ∧
  ∃ st' raws results,
    Close ["master"; "replica"] Example.reg2 = Ret st' ∧
    Forall2 (λ key raw, raw_of Example.reg2 key = Some raw)
      ["master"; "replica"] raws ∧
    length results = length ["master"; "replica"] ∧
    lw_closes (world st')
    = lw_closes (world Example.reg2) ++ zip raws results ∧
    (∀ i key res,
       ["master"; "replica"] !! i = Some key → results !! i = Some res →
       pool st' !! key
       = match res with
         | None => None
         | Some _ => pool Example.reg2 !! key
         end) ∧
    (∀ name, pool Example.reg2 !! name = None → pool st' !! name = None).
Proof.
  split; [exact Example_reg2_wf|]. split; [exact Example_reg2_range|].
  exact (C9_Close_keeps_failures Example.reg2 ["master"; "replica"]
           Example_reg2_wf Example_reg2_range).
Defined.

(** What [Close] does on the example: the stuck connection of
    ["master"] stays registered, ["replica"] is removed. *)
Example Close_reg2 :
  (st ← Close ["master"; "replica"] Example.reg2;
   Ret (pool st !! "master", pool st !! "replica", lw_closes (world st)))
  = Ret (Some 0, None, [(1, Some World.errStuck); (2, None)]).
Proof. reflexivity. Qed.

(** * Further properties of the registry *)

Section RegistryMore.
Context {W R : Type} `{SqlDB W R}.

Lemma DB_Close_loop_lookup (keys : list string) db (p : gmap string addr) :
  (∀ n1 n2 a, p !! n1 = Some a → p !! n2 = Some a → n1 = n2) →
  (∀ n, p !! n = Some db → n ∈ keys) →
  ∀ n, DB_Close_loop keys db p !! n
       = if decide (p !! n = Some db) then None else p !! n.
Proof.
  intros Hinj Hkeys n. case_decide as Hn.
  - rewrite (DB_Close_loop_delete keys db p n); auto.
    by rewrite lookup_delete_eq.
  - clear Hkeys. induction keys as [|key keys IH]; [done|]. simpl.
    case_decide as Hkey; [|done].
    rewrite lookup_delete_ne; [done|]. by intros ->.
Qed.

Lemma Close_loop_shrinks (keys : list string) : ∀ st st' : registry W R,
  Close_loop keys st = Ret st' →
  pool st' ⊆ pool st ∧ heap st' = heap st.
Proof.
  induction keys as [|key keys IH]; intros st st' Hrun; simpl in Hrun.
  - by simplify_eq.
  - destruct (pool st !! key ≫= (heap st !!.)) as [raw|]; [|done].
    destruct (sql_DB_Close raw (world st)) as [[e|] w];
      apply IH in Hrun as [Hsub Hheap]; simpl in *; [done|].
    split; [|done]. etrans; [exact Hsub|]. apply delete_subseteq.
Qed.

Lemma registry_wf_shrink (st st' : registry W R) :
  registry_wf st → pool st' ⊆ pool st → heap st' = heap st →
  registry_wf st'.
Proof.
  intros [Hheap Hinj] Hsub Hh. split.
  - intros n a Hn. rewrite Hh. eapply Hheap, lookup_weaken; eauto.
  - intros n1 n2 a H1 H2.
    eapply Hinj; eapply lookup_weaken; eauto.
Qed.

(** X1.  [New] with a name that is not registered follows the driver:
    when [sql.Open] fails its error is returned and nothing is
    registered; when it succeeds the name is bound to a newly allocated
    handle, different from every handle registered before, which wraps
    the connection the driver returned, [Get] finds it, and every other
    name keeps its answer. *)
Theorem X1_New_unused_name (st : registry W R) (name driver dsn : string)
    (db : R) (err : option error) (w : W) :
  registry_wf st →
  pool st !! name = None →
  sql_Open driver dsn (world st) = ((db, err), w) →
  match err with
  | Some e =>
      New name driver dsn st
      = ((None, Some e), mkRegistry (pool st) (heap st) w)
  | None =>
      ∃ a st',
        New name driver dsn st = ((Some a, None), st') ∧
        heap st !! a = None ∧ (∀ n, pool st !! n ≠ Some a) ∧
        Get name st' = (Some a, true) ∧ heap st' !! a = Some db ∧
        world st' = w ∧
        ∀ other, other ≠ name → Get other st' = Get other st
  end.
Proof.
  intros [Hheap _] Hfree Hopen. unfold New. rewrite Hfree, Hopen.
  destruct err as [e|]; [done|].
  unfold register.
  pose proof (is_fresh (dom (heap st))) as Hfresh.
  set (a := fresh (dom (heap st))) in *.
  eexists a, _. split; [done|].
  assert (heap st !! a = None) as Ha by (by apply not_elem_of_dom).
  split_and!.
  - done.
  - intros n Hn. apply Hheap in Hn as [x Hx]. congruence.
  - unfold Get. simpl. by rewrite lookup_insert_eq.
  - simpl. by rewrite lookup_insert_eq.
  - done.
  - intros other Hne. unfold Get. simpl. by rewrite lookup_insert_ne.
Qed.

(** X2.  [NewWithDB] with a name that is not registered binds it to a
    newly allocated handle wrapping the given connection; the handle
    differs from every handle registered before, so adopting one
    connection under two names gives two distinct handles; the outside
    world is not touched and every other name keeps its answer. *)
Theorem X2_NewWithDB_unused_name (st : registry W R) (name : string) (db : R) :
  registry_wf st →
  pool st !! name = None →
  ∃ a st',
    NewWithDB name db st = ((Some a, None), st') ∧
    heap st !! a = None ∧ (∀ n, pool st !! n ≠ Some a) ∧
    Get name st' = (Some a, true) ∧ heap st' !! a = Some db ∧
    world st' = world st ∧
    (∀ other, other ≠ name → Get other st' = Get other st) ∧
    ∀ name2, name2 ≠ name → pool st !! name2 = None → ∃ a2 st2,
      NewWithDB name2 db st' = ((Some a2, None), st2) ∧ a2 ≠ a ∧
      Get name st2 = (Some a, true) ∧ Get name2 st2 = (Some a2, true).
Proof.
  intros [Hheap _] Hfree. unfold NewWithDB at 1. rewrite Hfree.
  unfold register.
  pose proof (is_fresh (dom (heap st))) as Hfresh.
  set (a := fresh (dom (heap st))) in *.
  eexists a, _. split; [done|].
  assert (heap st !! a = None) as Ha by (by apply not_elem_of_dom).
  split_and!.
  - done.
  - intros n Hn. apply Hheap in Hn as [x Hx]. congruence.
  - unfold Get. simpl. by rewrite lookup_insert_eq.
  - simpl. by rewrite lookup_insert_eq.
  - done.
  - intros other Hne. unfold Get. simpl. by rewrite lookup_insert_ne.
  - intros name2 Hne Hfree2. unfold NewWithDB, register. simpl.
    rewrite lookup_insert_ne, Hfree2 by done.
    pose proof (is_fresh (dom (<[a:=db]> (heap st)))) as Hfresh2.
    set (a2 := fresh (dom (<[a:=db]> (heap st)))) in *.
    eexists a2, _. split; [done|]. split_and!.
    + intros Heq. apply Hfresh2. rewrite Heq. set_solver.
    + unfold Get. simpl. by rewrite lookup_insert_ne, lookup_insert_eq.
    + unfold Get. simpl. by rewrite lookup_insert_eq.
Qed.

(** X3.  [DB.Close] on an allocated handle returns what the wrapped
    connection's close returns.  When that is an error the pool is left
    as it is; when the close succeeds the name the handle is registered
    under is deleted and every other entry is kept, and a handle that is
    not registered any more changes nothing. *)
Theorem X3_DB_Close_removes_own_entry (st : registry W R)
    (order : list string) (db : addr) (raw : R) (res : option error) (w : W) :
  registry_wf st → range_of st order →
  heap st !! db = Some raw →
  sql_DB_Close raw (world st) = (res, w) →
  ∃ st',
    DB_Close order db st = Ret (res, st') ∧
    heap st' = heap st ∧ world st' = w ∧
    match res with
    | Some _ => pool st' = pool st
    | None =>
        ∀ n, pool st' !! n
             = if decide (pool st !! n = Some db) then None else pool st !! n
    end.
Proof.
  intros [_ Hinj] Hr Hdb Hclose. unfold DB_Close. rewrite Hdb, Hclose.
  destruct res as [e|]; eexists; (split; [done|]); simpl; [done|].
  split_and!; [done..|]. apply DB_Close_loop_lookup; [done|].
  intros n Hn. apply (range_of_elem st); eauto.
Qed.

(** X4.  The registry invariant is kept by every operation: after
    [New], [NewWithDB], [Close] and [DB.Close], as in the empty registry
    of [init], every registered handle is allocated and no two names
    share a handle. *)
Theorem X4_registry_invariant (st : registry W R) :
  registry_wf st →
  (∀ w : W, registry_wf (init w : registry W R)) ∧
  (∀ name driver dsn, registry_wf (New name driver dsn st).2) ∧
  (∀ name db, registry_wf (NewWithDB name db st).2) ∧
  (∀ order st', Close order st = Ret st' → registry_wf st') ∧
  (∀ order db e st', DB_Close order db st = Ret (e, st') → registry_wf st').
Proof.
  intros Hwf. split_and!.
  - apply init_wf.
  - intros. by apply New_wf.
  - intros. by apply NewWithDB_wf.
  - intros order st' Hrun. apply Close_loop_shrinks in Hrun as [Hsub Hh].
    by eapply registry_wf_shrink.
  - intros order db e st' Hrun. unfold DB_Close in Hrun.
    destruct (heap st !! db) as [raw|]; [|done].
    destruct (sql_DB_Close raw (world st)) as [[e'|] w]; simplify_eq.
    + by destruct Hwf.
    + eapply registry_wf_shrink; [done| |done]. simpl.
      clear. induction order as [|key keys IH]; [done|]. simpl.
      case_decide; [apply delete_subseteq | done].
Qed.

(** X5.  [Databases] and [Get] agree, and the list does not depend on
    the order in which the map is ranged: two enumerations of one
    registry are equal, [Get] finds a name exactly when it is listed,
    and an empty registry lists nothing. *)
Theorem X5_Databases_agrees_with_Get (st : registry W R)
    (order1 order2 : list string) :
  range_of st order1 → range_of st order2 →
  Databases order1 = Databases order2 ∧
  (∀ name, (Get name st).2 = true ↔ name ∈ Databases order1) ∧
  (pool st = ∅ → Databases order1 = []).
Proof.
  intros Hr1 Hr2. split_and!.
  - apply Databases_order_irrelevant. unfold range_of in *.
    by rewrite Hr1, Hr2.
  - intros name. rewrite Databases_Permutation, (range_of_elem st) by done.
    unfold Get. destruct (pool st !! name); simpl.
    + split; [eauto | done].
    + split; [done | by intros [? ?]].
  - intros Hempty. unfold range_of in Hr1. rewrite Hempty in Hr1.
    rewrite dom_empty_L, elements_empty in Hr1.
    apply Permutation_nil_r in Hr1. by subst.
Qed.

(** X16.  Entries are removed by handle, not by name.  After a
    successful [DB.Close] the name is free and can be registered again;
    the new registration gets a handle different from the old one, so a
    second [DB.Close] on the old handle, whatever it returns, leaves the
    new registration in place. *)
Theorem X16_name_reuse_after_DB_Close (st : registry W R)
    (order : list string) (name driver dsn : string) (db : addr)
    (raw db2 : R) (w w2 : W) :
  registry_wf st → range_of st order →
  pool st !! name = Some db → heap st !! db = Some raw →
  sql_DB_Close raw (world st) = (None, w) →
  sql_Open driver dsn w = ((db2, None), w2) →
  ∃ st1 a st2,
    DB_Close order db st = Ret (None, st1) ∧
    Get name st1 = (None, false) ∧
    New name driver dsn st1 = ((Some a, None), st2) ∧
    a ≠ db ∧ Get name st2 = (Some a, true) ∧
    ∀ order2 res3 w3,
      range_of st2 order2 → sql_DB_Close raw w2 = (res3, w3) →
      ∃ st3, DB_Close order2 db st2 = Ret (res3, st3) ∧
             Get name st3 = (Some a, true).
Proof.
  intros Hwf Hr Hname Hdb Hclose Hopen.
  pose proof Hwf as [Hheap Hinj].
  assert (∀ n, pool st !! n = Some db → n ∈ order) as Hin.
  { intros n Hn. apply (range_of_elem st); eauto. }
  set (st1 := mkRegistry (DB_Close_loop order db (pool st)) (heap st) w).
  assert (DB_Close order db st = Ret (None, st1)) as Hrun.
  { unfold DB_Close. by rewrite Hdb, Hclose. }
  assert (pool st1 !! name = None) as Hfree.
  { subst st1. simpl. rewrite DB_Close_loop_lookup by done.
    by rewrite decide_True. }
  assert (registry_wf st1) as Hwf1.
  { apply (registry_wf_shrink st); [done| |done]. subst st1. simpl.
    apply map_subseteq_spec. intros n x. rewrite DB_Close_loop_lookup by done.
    by case_decide. }
  pose proof (is_fresh (dom (heap st))) as Hfresh.
  set (a := fresh (dom (heap st))) in *.
  assert (a ≠ db) as Hne.
  { intros ->. apply Hfresh, elem_of_dom. eauto. }
  set (st2 := mkRegistry (<[name := a]> (pool st1)) (<[a := db2]> (heap st))
                w2).
  assert (New name driver dsn st1 = ((Some a, None), st2)) as Hnew.
  { unfold New. rewrite Hfree. subst st1. simpl. by rewrite Hopen. }
  exists st1, a, st2. split_and!; try done.
  - unfold Get. by rewrite Hfree.
  - unfold Get. subst st2. simpl. by rewrite lookup_insert_eq.
  - intros order2 res3 w3 Hr2 Hclose2.
    assert (registry_wf st2) as [_ Hinj2].
    { pose proof (register_wf name db2 w2 st1 Hwf1 Hfree) as Hreg.
      exact Hreg. }
    unfold DB_Close. subst st2. simpl.
    rewrite lookup_insert_ne, Hdb, Hclose2 by done.
    destruct res3 as [e|]; eexists; (split; [done|]); unfold Get; simpl.
    + by rewrite lookup_insert_eq.
    + rewrite DB_Close_loop_lookup; [| exact Hinj2 |].
      * rewrite lookup_insert_eq, decide_False; [done|]. congruence.
      * intros n Hn. apply (range_of_elem _ _ n Hr2). simpl. eauto.
Qed.

End RegistryMore.

Section CloseAllMore.
Context {W R : Type} `{SqlDB W R}.

(** X6.  [Close] never adds or rebinds a name, and its effect on the
    pool is decided by the closes it performed: when all of them
    returned nil the registry is empty afterwards, and when all of them
    failed the pool is exactly as before. *)
Theorem X6_Close_all_or_nothing (st st' : registry (LoggedW W R) R)
    (order : list string) (tr : list (R * option error)) :
  registry_wf st → range_of st order →
  Close order st = Ret st' →
  lw_closes (world st') = lw_closes (world st) ++ tr →
  pool st' ⊆ pool st ∧
  length tr = length order ∧
  (Forall (λ x, x.2 = None) tr → pool st' = ∅) ∧
  (Forall (λ x, x.2 ≠ None) tr → pool st' = pool st).
Proof.
  intros [Hheap Hinj] Hr Hrun Hlog.
  destruct (Close_loop_spec order st) as (st2 & raws & results & Hrun2 & _
                                          & Hraws & Hlen & Hlog2 & Hres & Hrest).
  { by eapply range_of_NoDup. }
  { intros key [a Ha]%(range_of_elem st); [|done].
    unfold raw_of. rewrite Ha. simpl. by eapply Hheap. }
  unfold Close in Hrun. rewrite Hrun2 in Hrun. simplify_eq.
  rewrite Hlog2 in Hlog. apply app_inv_head in Hlog. subst tr.
  apply Forall2_length in Hraws.
  assert (∀ i key, order !! i = Some key →
            ∃ raw res, raws !! i = Some raw ∧ results !! i = Some res ∧
                       (raw, res) ∈ zip raws results) as Hzip.
  { intros i key Hi.
    destruct (lookup_lt_is_Some_2 raws i) as [raw Hraw].
    { rewrite <-Hraws. by eapply lookup_lt_Some. }
    destruct (lookup_lt_is_Some_2 results i) as [res Hres'].
    { rewrite Hlen. by eapply lookup_lt_Some. }
    exists raw, res. split_and!; [done..|].
    apply list_elem_of_lookup. exists i.
    apply lookup_zip_with_Some. eauto. }
  split_and!.
  - apply (Close_loop_shrinks order st st' Hrun2).
  - rewrite length_zip_with. lia.
  - intros Hall. apply map_eq. intros name. rewrite lookup_empty.
    destruct (decide (name ∈ order)) as [Hin|Hout].
    + apply list_elem_of_lookup in Hin as [i Hi].
      destruct (Hzip i name Hi) as (raw & res & _ & Hri & Hz).
      rewrite (Hres i name res Hi Hri).
      rewrite Forall_forall in Hall. specialize (Hall _ Hz). simpl in Hall.
      by subst res.
    + rewrite Hrest by done.
      destruct (pool st !! name) eqn:Hn; [|done].
      exfalso. apply Hout, (range_of_elem st); eauto.
  - intros Hall. apply map_eq. intros name.
    destruct (decide (name ∈ order)) as [Hin|Hout]; [|by apply Hrest].
    apply list_elem_of_lookup in Hin as [i Hi].
    destruct (Hzip i name Hi) as (raw & res & _ & Hri & Hz).
    rewrite (Hres i name res Hi Hri).
    rewrite Forall_forall in Hall. specialize (Hall _ Hz). simpl in Hall.
    by destruct res.
Qed.

End CloseAllMore.

(** * Further properties of the buffered row cursor *)

(** With a repeated column name the value of the last such column is
    the one kept. *)
Lemma row_map_lookup_last (cols : list string) (cells : list value) i c v :
  cols !! i = Some c → cells !! i = Some v →
  (∀ j, i < j → cols !! j ≠ Some c) →
  row_map cols cells !! c = Some v.
Proof.
  intros Hc Hv Hlast. unfold row_map.
  rewrite <-(take_drop_middle cols i c Hc), <-(take_drop_middle cells i v Hv).
  assert (length (take i cols) = length (take i cells)) as Hlen.
  { apply lookup_lt_Some in Hc, Hv. rewrite !length_take. lia. }
  rewrite zip_with_app by done. simpl.
  rewrite reverse_app, reverse_cons, <-(assoc_L (++)).
  rewrite list_to_map_app. apply lookup_union_Some_raw. right. split.
  - apply not_elem_of_list_to_map_1. rewrite fmap_reverse, elem_of_reverse.
    intros Hin. apply list_elem_of_fmap in Hin as [[c' v'] [-> Hin]].
    apply list_elem_of_lookup in Hin as [j Hj].
    apply lookup_zip_with_Some in Hj as (x & y & Heq & Hx & Hy).
    simplify_eq. simpl in *. rewrite lookup_drop in Hx.
    by apply (Hlast (Datatypes.S i + j)); [lia|].
  - simpl. by rewrite lookup_insert_eq.
Qed.

Section CursorMore.
Context {S : Type} `{SqlRows S}.

(** X7.  The column names are fetched once: when the cursor has none
    yet, a successful advance stores the list the stream reports for the
    row just reached and sizes the decode targets to it; once a list is
    stored no later advance, successful or not, changes it or the number
    of decode targets. *)
Theorem X7_columns_fetched_once (rs rs' : Rows S) (b : bool) :
  Rows_Next rs = Ret (b, rs') →
  (∀ cols, rs_columns rs = Some cols →
     rs_columns rs' = Some cols ∧
     length (rs_loader rs') = length (rs_loader rs)) ∧
  (rs_columns rs = None → b = true →
     rs_columns rs' = (sql_Columns (sql_Next (rs_Rows rs)).2).1 ∧
     length (rs_loader rs') = length (slice (rs_columns rs'))).
Proof.
  unfold Rows_Next, Rows_Next_load. intros Hn.
  destruct (rs_err rs) as [e|] eqn:Herr.
  { simplify_eq. split; [done|]. intros _ ?. done. }
  destruct (sql_Next (rs_Rows rs)) as [[] s] eqn:Hnext; simpl in Hn.
  2:{ simplify_eq. simpl. split; [done|]. intros _ ?. done. }
  destruct (rs_columns rs) as [cols|] eqn:Hcols; simpl in Hn.
  - pose proof (sql_Scan_length s (rs_loader rs)) as Hlen.
    destruct (sql_Scan s (rs_loader rs)) as [[cells [e|]] s2]; simpl in *.
    + simplify_eq. simpl. split; [|done]. intros ? [= <-]. done.
    + destruct (publish _ _ _ _); simpl in Hn; simplify_eq.
      simpl. split; [|done]. intros ? [= <-]. done.
  - split; [done|]. intros _ ->.
    destruct (sql_Columns s) as [cols [e|]] eqn:Hc; simpl in Hn.
    { by simplify_eq. }
    pose proof (sql_Scan_length s (replicate (length (slice cols)) VNil))
      as Hlen.
    rewrite length_replicate in Hlen.
    destruct (sql_Scan s _) as [[cells [e|]] s2]; simpl in *.
    + by simplify_eq.
    + destruct (publish _ _ _ _); simpl in Hn; simplify_eq.
      simpl. rewrite Hc. simpl. split; [done | lia].
Qed.

(** X8.  [Err] tells a clean end from a failure.  When [Next] returns
    false and [Err] is nil afterwards, the stream itself answered that
    there is no further row and the cursor is otherwise untouched; when
    the stream did have a row but [Next] returned false (the column
    names or the row could not be read), [Err] reports an error. *)
Theorem X8_false_and_no_error_is_exhaustion (rs rs' : Rows S) :
  Rows_Next rs = Ret (false, rs') →
  (Rows_Err rs' = None →
     ∃ s, sql_Next (rs_Rows rs) = (false, s) ∧ sql_Err s = None ∧
          rs' = mkRows s None (rs_columns rs) (rs_loader rs) (rs_values rs)) ∧
  (rs_err rs = None → (sql_Next (rs_Rows rs)).1 = true →
     Rows_Err rs' ≠ None).
Proof.
  intros Hn.
  assert (rs_err rs' ≠ None → Rows_Err rs' ≠ None) as Hrec.
  { unfold Rows_Err. destruct (sql_Err (rs_Rows rs')); [done|].
    by destruct (rs_err rs'). }
  destruct (Rows_Next_false rs rs' Hn)
    as [[He ->]|[[He He']|(He & s & Hs & ->)]].
  - split; [intros Hnone; by destruct (Hrec He)|]. done.
  - split; [intros Hnone; by destruct (Hrec He')|]. auto.
  - split.
    + intros Hnone. exists s. split_and!; [done| |done].
      unfold Rows_Err in Hnone. simpl in Hnone.
      by destruct (sql_Err s).
    + intros _. by rewrite Hs.
Qed.

(** X9.  What [Next] fetched is what the getters return.  After a
    successful advance of a reachable cursor with no pending error, the
    getter asked for a column name answers from the decode target of the
    last column of that name: the boolean getter returns a boolean, the
    integer getter the number of any signed integer kind, the float
    getter that of either float kind, the string and time getters a
    string or a time, and any other kind is refused with
    [ErrInvalidColumnTypeConversion]. *)
Theorem X9_getters_read_fetched_row (rs rs' : Rows S) (i : nat)
    (column : string) (v : value) :
  reachable rs →
  Rows_Next rs = Ret (true, rs') →
  Rows_Err rs' = None →
  slice (rs_columns rs') !! i = Some column →
  (∀ j, i < j → slice (rs_columns rs') !! j ≠ Some column) →
  rs_loader rs' !! i = Some v →
  Rows_GetBoolean rs' column
  = match v with
    | VBool b => (b, None)
    | _ => (false, Some ErrInvalidColumnTypeConversion)
    end ∧
  Rows_GetInteger rs' column
  = match v with
    | VInt _ n => (n, None)
    | _ => (0%Z, Some ErrInvalidColumnTypeConversion)
    end ∧
  Rows_GetDouble rs' column
  = match v with
    | VFloat32 f | VFloat64 f => (f, None)
    | _ => (S754_zero false, Some ErrInvalidColumnTypeConversion)
    end ∧
  Rows_GetString rs' column
  = match v with
    | VString s => (s, None)
    | _ => ("", Some ErrInvalidColumnTypeConversion)
    end ∧
  Rows_GetTime rs' column
  = match v with
    | VTime t => (t, None)
    | _ => (Time_zero, Some ErrInvalidColumnTypeConversion)
    end.
Proof.
  intros Hr Hn Herr Hc Hlast Hv.
  destruct (Rows_Next_spec rs (reachable_wf rs Hr)) as (b & rs2 & Hn2 & _ & Hb).
  rewrite Hn in Hn2. simplify_eq. destruct Hb as (_ & _ & Hvals).
  pose proof (row_map_lookup_last _ _ _ _ _ Hc Hv Hlast) as Hm.
  unfold Rows_GetBoolean, Rows_GetInteger, Rows_GetDouble, Rows_GetString,
    Rows_GetTime, validateRows.
  rewrite Herr, Hvals. simpl. rewrite Hm. simpl.
  by destruct v.
Qed.

End CursorMore.

(** * Further properties of the single-row view *)

Section ViewMore.
Context {S : Type} `{SqlRows S}.

(** X10.  On the view of a query that failed, [Scan] returns the
    query's error and touches neither the destinations nor the view,
    whereas every typed getter panics: [next] does not look at the
    stored error and dereferences the nil cursor. *)
Theorem X10_failed_query_view (raw : S * option error) (e : error)
    (dest : list value) (column : string) :
  raw.2 = Some e →
  Row_Scan (Query_Row raw) dest = Ret ((dest, Some e), Query_Row raw) ∧
  Row_GetBoolean (Query_Row raw) column = Panic "nil pointer dereference" ∧
  Row_GetInteger (Query_Row raw) column = Panic "nil pointer dereference" ∧
  Row_GetDouble (Query_Row raw) column = Panic "nil pointer dereference" ∧
  Row_GetString (Query_Row raw) column = Panic "nil pointer dereference" ∧
  Row_GetTime (Query_Row raw) column = Panic "nil pointer dereference".
Proof.
  intros He. unfold Query_Row, Query. rewrite He. by split_and!.
Qed.

(** The view of a successful query, with the stream's calls recorded. *)
Lemma Query_Row_ok (s : S) :
  Query_Row (mkLogged s [], None)
  = mkRow None false (Some (newRows (mkLogged s []))).
Proof. done. Qed.

(** What [Scan] leaves behind when the stream has a row. *)
Lemma Row_Scan_found_row (s s1 s2 s3 s4 s5 : S)
    (cols : option (list string)) (row dest dest' : list value)
    (e3 e4 e5 : option error) :
  sql_Next s = (true, s1) →
  sql_Columns s1 = (cols, None) →
  sql_Scan s1 (replicate (length (slice cols)) VNil) = ((row, None), s2) →
  sql_Scan s2 dest = ((dest', e3), s3) →
  sql_Close s3 = (e4, s4) →
  sql_Close s4 = (e5, s5) →
  Row_Scan (Query_Row (mkLogged s [], None)) dest
  = Ret ((dest', match e3 with Some e => Some e | None => e4 end),
         mkRow None false
           (Some (mkRows
                    (match e3 with
                     | Some _ =>
                         mkLogged s4 [CNext true; CScan; CScan; CClose]
                     | None =>
                         mkLogged s5
                           [CNext true; CScan; CScan; CClose; CClose]
                     end)
                    None cols row (Some (row_map (slice cols) row))))).
Proof.
  intros Hn Hc Hs1 Hs2 Hc1 Hc2.
  pose proof (Rows_Next_one_row s s1 s2 [] cols row Hn Hc Hs1) as Hnext.
  rewrite Query_Row_ok. unfold Row_Scan. cbn [r_err r_rows r_next].
  rewrite Hnext. cbn [mbind outcome_bind negb].
  unfold Rows_Scan, Rows_Close, deferred_Close. simpl.
  rewrite Hs2. simpl. destruct e3 as [e|]; simpl.
  - unfold Rows_Close. simpl. by rewrite Hc1.
  - rewrite Hc1. simpl. unfold Rows_Close. simpl. rewrite Hc2. simpl.
    by destruct e4.
Qed.

(** X11.  [Scan] on the view of a query whose stream has a row decodes
    that row twice, first into the cursor's snapshot and then into the
    caller's destinations, and returns the outcome of the second
    decoding, or else of the close that follows it; the one-shot flag
    stays unset, the snapshot holds the row, and the stream is closed on
    each of these paths. *)
Theorem X11_Scan_decodes_twice (s s1 s2 s3 s4 s5 : S)
    (cols : option (list string)) (row dest dest' : list value)
    (e3 e4 e5 : option error) :
  sql_Next s = (true, s1) →
  sql_Columns s1 = (cols, None) →
  sql_Scan s1 (replicate (length (slice cols)) VNil) = ((row, None), s2) →
  sql_Scan s2 dest = ((dest', e3), s3) →
  sql_Close s3 = (e4, s4) →
  sql_Close s4 = (e5, s5) →
  ∃ rs',
    Row_Scan (Query_Row (mkLogged s [], None)) dest
    = Ret ((dest', match e3 with Some e => Some e | None => e4 end),
           mkRow None false (Some rs')) ∧
    rs_values rs' = Some (row_map (slice cols) row) ∧
    lg_calls (rs_Rows rs')
    = match e3 with
      | Some _ => [CNext true; CScan; CScan; CClose]
      | None => [CNext true; CScan; CScan; CClose; CClose]
      end ∧
    lg_stream (rs_Rows rs') = match e3 with Some _ => s4 | None => s5 end.
Proof.
  intros Hn Hc Hs1 Hs2 Hc1 Hc2.
  eexists. split.
  - exact (Row_Scan_found_row s s1 s2 s3 s4 s5 cols row dest dest' e3 e4 e5
             Hn Hc Hs1 Hs2 Hc1 Hc2).
  - simpl. by destruct e3.
Qed.

(** X12.  [Scan] and the typed getters do not share the one-shot
    flag.  After a [Scan] that found and decoded the row, the first
    typed getter on the same view advances the closed stream again and,
    the stream now having no row, answers the stream's error if it
    reports one and [ErrNoRows] otherwise, although a row is cached. *)
Theorem X12_getter_after_Scan (s s1 s2 s3 s4 s5 s6 : S)
    (cols : option (list string)) (row dest dest' : list value)
    (e5 e6 : option error) (column : string) :
  sql_Next s = (true, s1) →
  sql_Columns s1 = (cols, None) →
  sql_Scan s1 (replicate (length (slice cols)) VNil) = ((row, None), s2) →
  sql_Scan s2 dest = ((dest', None), s3) →
  sql_Close s3 = (None, s4) →
  sql_Close s4 = (e5, s5) →
  sql_Next s5 = (false, s6) →
  sql_Err s6 = e6 →
  let r0 := Query_Row (mkLogged s [], None) in
  let e := Some (default ErrNoRows e6) in
  Scan_then r0 dest Row_GetBoolean column
  = Ret ((dest', None), (false, e)) ∧
  Scan_then r0 dest Row_GetInteger column
  = Ret ((dest', None), (0%Z, e)) ∧
  Scan_then r0 dest Row_GetDouble column
  = Ret ((dest', None), (S754_zero false, e)) ∧
  Scan_then r0 dest Row_GetString column
  = Ret ((dest', None), ("", e)) ∧
  Scan_then r0 dest Row_GetTime column
  = Ret ((dest', None), (Time_zero, e)).
Proof.
  intros Hn Hc Hs1 Hs2 Hc1 Hc2 Hn2 He r0 e.
  pose proof (Row_Scan_found_row s s1 s2 s3 s4 s5 cols row dest dest'
                None None e5 Hn Hc Hs1 Hs2 Hc1 Hc2) as Hscan.
  assert (∀ A (zero : A) g,
    Scan_then r0 dest (delegate zero g) column
    = Ret ((dest', None), (zero, e))) as Hall.
  { intros A zero g. unfold Scan_then, r0. rewrite Hscan.
    cbn [mbind outcome_bind]. unfold delegate, next. cbn [r_next r_rows r_err].
    unfold Rows_Next. simpl. rewrite Hn2. simpl.
    unfold Rows_Err. simpl. rewrite He. subst e.
    by destruct e6. }
  split_and!; apply Hall.
Qed.

(** What the first [next] leaves behind when the stream has a row. *)
Lemma next_found_row (s s1 s2 s3 s4 : S) (cols : option (list string))
    (row : list value) (e3 e4 : option error) :
  sql_Next s = (true, s1) →
  sql_Columns s1 = (cols, None) →
  sql_Scan s1 (replicate (length (slice cols)) VNil) = ((row, None), s2) →
  sql_Close s2 = (e3, s3) →
  sql_Close s3 = (e4, s4) →
  next (Query_Row (mkLogged s [], None))
  = Ret (e3, mkRow None true
               (Some (mkRows
                        (mkLogged s4 [CNext true; CScan; CClose; CClose])
                        None cols row (Some (row_map (slice cols) row))))).
Proof.
  intros Hn Hc Hs Hc1 Hc2.
  pose proof (Rows_Next_one_row s s1 s2 [] cols row Hn Hc Hs) as Hnext.
  rewrite Query_Row_ok. unfold next. cbn [r_err r_rows r_next].
  rewrite Hnext. cbn [mbind outcome_bind negb].
  unfold Rows_Close, deferred_Close. simpl. rewrite Hc1. simpl.
  unfold Rows_Close. simpl. rewrite Hc2. by destruct e3.
Qed.

(** X13.  After a typed getter has cached the row, [Scan] on the same
    view does not see it: it advances the closed stream again and
    returns the stream's error if it reports one and [ErrNoRows]
    otherwise, leaving the destinations as they were. *)
Theorem X13_Scan_after_getter (s s1 s2 s3 s4 s5 : S)
    (cols : option (list string)) (row dest : list value)
    (e4 e5 : option error) (column : string) :
  sql_Next s = (true, s1) →
  sql_Columns s1 = (cols, None) →
  sql_Scan s1 (replicate (length (slice cols)) VNil) = ((row, None), s2) →
  sql_Close s2 = (None, s3) →
  sql_Close s3 = (e4, s4) →
  sql_Next s4 = (false, s5) →
  sql_Err s5 = e5 →
  let r0 := Query_Row (mkLogged s [], None) in
  let rs1 := mkRows (mkLogged s4 [CNext true; CScan; CClose; CClose])
               None cols row (Some (row_map (slice cols) row)) in
  let res := (dest, Some (default ErrNoRows e5)) in
  then_Scan r0 Row_GetBoolean column dest
  = Ret (Rows_GetBoolean rs1 column, res) ∧
  then_Scan r0 Row_GetInteger column dest
  = Ret (Rows_GetInteger rs1 column, res) ∧
  then_Scan r0 Row_GetDouble column dest
  = Ret (Rows_GetDouble rs1 column, res) ∧
  then_Scan r0 Row_GetString column dest
  = Ret (Rows_GetString rs1 column, res) ∧
  then_Scan r0 Row_GetTime column dest
  = Ret (Rows_GetTime rs1 column, res).
Proof.
  intros Hn Hc Hs Hc1 Hc2 Hn2 He r0 rs1 res.
  pose proof (next_found_row s s1 s2 s3 s4 cols row None e4 Hn Hc Hs Hc1 Hc2)
    as Hfirst.
  assert (∀ A (zero : A) g,
    then_Scan r0 (delegate zero g) column dest
    = Ret (g rs1 column, res)) as Hall.
  { intros A zero g. unfold then_Scan, delegate, r0. rewrite Hfirst.
    cbn [mbind outcome_bind r_rows]. unfold Row_Scan.
    cbn [r_err r_rows r_next]. unfold Rows_Next. simpl. rewrite Hn2. simpl.
    unfold Rows_Err. simpl. rewrite He. subst res.
    by destruct e5. }
  split_and!; apply Hall.
Qed.

(** X14.  A close that fails after the row was fetched is reported
    once.  The first typed getter returns the error of the close; the
    flag is set and the snapshot holds the row all the same, so every
    later getter answers from the cached row without touching the
    stream. *)
Theorem X14_close_error_reported_once (s s1 s2 s3 s4 : S)
    (cols : option (list string)) (row : list value)
    (e : error) (e4 : option error) (column : string) :
  sql_Next s = (true, s1) →
  sql_Columns s1 = (cols, None) →
  sql_Scan s1 (replicate (length (slice cols)) VNil) = ((row, None), s2) →
  sql_Close s2 = (Some e, s3) →
  sql_Close s3 = (e4, s4) →
  let r0 := Query_Row (mkLogged s [], None) in
  let rs1 := mkRows (mkLogged s4 [CNext true; CScan; CClose; CClose])
               None cols row (Some (row_map (slice cols) row)) in
  let r1 := mkRow None true (Some rs1) in
  getters_on r0 column = all_fail e r1 ∧
  getters_on r1 column = all_read rs1 column r1.
Proof.
  intros Hn Hc Hs Hc1 Hc2 r0 rs1 r1.
  pose proof (next_found_row s s1 s2 s3 s4 cols row (Some e) e4
                Hn Hc Hs Hc1 Hc2) as Hfirst.
  split.
  - unfold getters_on, all_fail, Row_GetBoolean, Row_GetInteger,
      Row_GetDouble, Row_GetString, Row_GetTime, delegate, r0.
    by rewrite Hfirst.
  - done.
Qed.

(** X15.  On the view of a query that matched no row (and whose stream
    reports no error) the first typed getter answers [ErrNoRows] and
    closes the stream; later calls of the integer, float, string and
    time getters keep answering [ErrNoRows], but later calls of the
    boolean getter answer [ErrInvalidColumnTypeConversion]. *)
Theorem X15_no_row_later_getters (s s1 s2 : S) (e2 : option error)
    (column : string) :
  sql_Next s = (false, s1) →
  sql_Err s1 = None →
  sql_Close s1 = (e2, s2) →
  sql_Err s2 = None →
  let r0 := Query_Row (mkLogged s [], None) in
  let r1 := mkRow None true
              (Some (newRows (mkLogged s2 [CNext false; CClose]))) in
  getters_on r0 column = all_fail ErrNoRows r1 ∧
  getters_on r1 column
  = (Ret ((false, Some ErrInvalidColumnTypeConversion), r1),
     Ret ((0%Z, Some ErrNoRows), r1),
     Ret ((S754_zero false, Some ErrNoRows), r1),
     Ret (("", Some ErrNoRows), r1),
     Ret ((Time_zero, Some ErrNoRows), r1)).
Proof.
  intros Hn He1 Hc He2 r0 r1.
  assert (next r0 = Ret (Some ErrNoRows, r1)) as Hfirst.
  { unfold r0. rewrite Query_Row_ok. unfold next. cbn [r_err r_rows r_next].
    rewrite Rows_Next_no_row by (by rewrite Hn).
    cbn [mbind outcome_bind negb]. rewrite Hn. simpl.
    unfold Rows_Err. simpl. rewrite He1.
    unfold deferred_Close, Rows_Close. simpl. by rewrite Hc. }
  split.
  - unfold getters_on, all_fail, Row_GetBoolean, Row_GetInteger,
      Row_GetDouble, Row_GetString, Row_GetTime, delegate.
    by rewrite Hfirst.
  - unfold getters_on, Row_GetBoolean, Row_GetInteger,
      Row_GetDouble, Row_GetString, Row_GetTime, delegate, next, r1.
    simpl. unfold Rows_GetInteger, Rows_GetDouble, Rows_GetString,
      Rows_GetTime, validateRows, Rows_Err. simpl. by rewrite He2.
Qed.

End ViewMore.

(** * The further properties on concrete data *)

Lemma Example_reg1_wf : registry_wf Example.reg1.
Proof. apply New_wf, init_wf. Qed.

Lemma X1_witness :
  registry_wf Example.reg1 ∧
  pool Example.reg1 !! "replica" = None ∧
  sql_Open "postgres" "host=b" (world Example.reg1)
  = ((2, None), world Example.reg2) ∧
  sql_Open "mysql" "host=b" (world Example.reg1)
  = ((0, Some World.errUnknownDriver), world Example.reg1) ∧
  New "replica" "mysql" "host=b" Example.reg1
  = ((None, Some World.errUnknownDriver), Example.reg1) ∧
  ∃ a st',
    New "replica" "postgres" "host=b" Example.reg1 = ((Some a, None), st') ∧
    Get "replica" st' = (Some a, true) ∧
    Get "master" st' = Get "master" Example.reg1.
Proof.
  assert (pool Example.reg1 !! "replica" = None) as Hfree by reflexivity.
  assert (sql_Open "postgres" "host=b" (world Example.reg1)
          = ((2, None), world Example.reg2)) as Hok by reflexivity.
  assert (sql_Open "mysql" "host=b" (world Example.reg1)
          = ((0, Some World.errUnknownDriver), world Example.reg1))
    as Hbad by reflexivity.
  split; [exact Example_reg1_wf|]. split; [exact Hfree|].
  split; [exact Hok|]. split; [exact Hbad|]. split.
  - exact (X1_New_unused_name Example.reg1 "replica" "mysql" "host=b" 0
             (Some World.errUnknownDriver) (world Example.reg1)
             Example_reg1_wf Hfree Hbad).
  - destruct (X1_New_unused_name Example.reg1 "replica" "postgres" "host=b" 2
                None (world Example.reg2) Example_reg1_wf Hfree Hok)
      as (a & st' & Hnew & _ & _ & Hget & _ & _ & Hother).
    exists a, st'. split; [exact Hnew|]. split; [exact Hget|].
    apply Hother. discriminate.
Defined.

Lemma X2_witness :
  registry_wf Example.reg1 ∧
  pool Example.reg1 !! "replica" = None ∧
  ∃ a st',
    NewWithDB "replica" 9 Example.reg1 = ((Some a, None), st') ∧
    Get "replica" st' = (Some a, true) ∧ heap st' !! a = Some 9.
Proof.
  assert (pool Example.reg1 !! "replica" = None) as Hfree by reflexivity.
  split; [exact Example_reg1_wf|]. split; [exact Hfree|].
  destruct (X2_NewWithDB_unused_name Example.reg1 "replica" 9
              Example_reg1_wf Hfree)
    as (a & st' & Hnew & _ & _ & Hget & Hheap & _).
  exists a, st'. by split_and!.
Defined.

Lemma X3_witness :
  registry_wf Example.reg2 ∧
  range_of Example.reg2 ["master"; "replica"] ∧
  heap Example.reg2 !! 1 = Some 2 ∧
  sql_DB_Close 2 (world Example.reg2) = (None, Example2.world_closed) ∧
  ∃ st',
    DB_Close ["master"; "replica"] 1 Example.reg2 = Ret (None, st') ∧
    pool st' !! "replica" = None ∧ pool st' !! "master" = Some 0.
Proof.
  assert (heap Example.reg2 !! 1 = Some 2) as Hh by reflexivity.
  assert (sql_DB_Close 2 (world Example.reg2)
          = (None, Example2.world_closed)) as Hc by reflexivity.
  split; [exact Example_reg2_wf|]. split; [exact Example_reg2_range|].
  split; [exact Hh|]. split; [exact Hc|].
  destruct (X3_DB_Close_removes_own_entry Example.reg2 ["master"; "replica"]
              1 2 None Example2.world_closed
              Example_reg2_wf Example_reg2_range Hh Hc)
    as (st' & Hrun & _ & _ & Hpool).
  exists st'. split; [exact Hrun|].
  split; [exact (Hpool "replica") | exact (Hpool "master")].
Defined.

Lemma X4_witness :
  registry_wf Example.reg2 ∧
  registry_wf (New "third" "postgres" "host=c" Example.reg2).2 ∧
  registry_wf Example2.reg2_closed.
Proof.
  split; [exact Example_reg2_wf|].
  destruct (X4_registry_invariant Example.reg2 Example_reg2_wf)
    as (_ & Hnew & _ & Hclose & _).
  split; [apply Hnew|].
  apply (Hclose ["master"; "replica"]). reflexivity.
Defined.

Lemma Example_reg2_range_swapped :
  range_of Example.reg2 ["replica"; "master"].
Proof. unfold range_of. apply (perm_swap "master" "replica" []). Qed.

Lemma X5_witness :
  range_of Example.reg2 ["master"; "replica"] ∧
  range_of Example.reg2 ["replica"; "master"] ∧
  Databases ["master"; "replica"] = Databases ["replica"; "master"] ∧
  ((Get "replica" Example.reg2).2 = true
   ↔ "replica" ∈ Databases ["master"; "replica"]).
Proof.
  split; [exact Example_reg2_range|].
  split; [exact Example_reg2_range_swapped|].
  destruct (X5_Databases_agrees_with_Get Example.reg2 ["master"; "replica"]
              ["replica"; "master"] Example_reg2_range
              Example_reg2_range_swapped) as (Heq & Hget & _).
  split; [exact Heq | exact (Hget "replica")].
Defined.

Lemma Example_reg_ok_wf : registry_wf Example2.reg_ok.
Proof. apply New_wf, New_wf, init_wf. Qed.

Lemma Example_reg_ok_range : range_of Example2.reg_ok ["master"; "replica"].
Proof. unfold range_of. reflexivity. Qed.

Lemma X6_witness :
  registry_wf Example2.reg_ok ∧
  range_of Example2.reg_ok ["master"; "replica"] ∧
  Close ["master"; "replica"] Example2.reg_ok = Ret Example2.reg_ok_closed ∧
  lw_closes (world Example2.reg_ok_closed)
  = lw_closes (world Example2.reg_ok) ++ [(1, None); (2, None)] ∧
  pool Example2.reg_ok_closed = ∅.
Proof.
  assert (Close ["master"; "replica"] Example2.reg_ok
          = Ret Example2.reg_ok_closed) as Hrun by reflexivity.
  assert (lw_closes (world Example2.reg_ok_closed)
          = lw_closes (world Example2.reg_ok) ++ [(1, None); (2, None)])
    as Hlog by reflexivity.
  split; [exact Example_reg_ok_wf|]. split; [exact Example_reg_ok_range|].
  split; [exact Hrun|]. split; [exact Hlog|].
  destruct (X6_Close_all_or_nothing Example2.reg_ok Example2.reg_ok_closed
              ["master"; "replica"] [(1, None); (2, None)]
              Example_reg_ok_wf Example_reg_ok_range Hrun Hlog)
    as (_ & _ & Hall & _).
  apply Hall. repeat constructor.
Defined.

Lemma X16_witness :
  registry_wf Example.reg2 ∧
  range_of Example.reg2 ["master"; "replica"] ∧
  pool Example.reg2 !! "replica" = Some 1 ∧
  heap Example.reg2 !! 1 = Some 2 ∧
  sql_DB_Close 2 (world Example.reg2) = (None, Example2.world_closed) ∧
  sql_Open "postgres" "host=c" Example2.world_closed
  = ((3, None), Example2.world_reopened) ∧
  ∃ st1 a st2,
    DB_Close ["master"; "replica"] 1 Example.reg2 = Ret (None, st1) ∧
    New "replica" "postgres" "host=c" st1 = ((Some a, None), st2) ∧
    a ≠ 1 ∧ Get "replica" st2 = (Some a, true).
Proof.
  assert (pool Example.reg2 !! "replica" = Some 1) as Hp by reflexivity.
  assert (heap Example.reg2 !! 1 = Some 2) as Hh by reflexivity.
  assert (sql_DB_Close 2 (world Example.reg2)
          = (None, Example2.world_closed)) as Hc by reflexivity.
  assert (sql_Open "postgres" "host=c" Example2.world_closed
          = ((3, None), Example2.world_reopened)) as Ho by reflexivity.
  split; [exact Example_reg2_wf|]. split; [exact Example_reg2_range|].
  split; [exact Hp|]. split; [exact Hh|]. split; [exact Hc|].
  split; [exact Ho|].
  destruct (X16_name_reuse_after_DB_Close Example.reg2 ["master"; "replica"]
              "replica" "postgres" "host=c" 1 2 3 Example2.world_closed
              Example2.world_reopened Example_reg2_wf Example_reg2_range
              Hp Hh Hc Ho)
    as (st1 & a & st2 & Hrun & _ & Hnew & Hne & Hget & _).
  exists st1, a, st2. by split_and!.
Defined.

Lemma Example_at_john_Next :
  Rows_Next (newRows Example.two_rows) = Ret (true, Example.at_john).
Proof. reflexivity. Qed.

Lemma X7_witness :
  Rows_Next Example.at_john
  = Ret (true, Example.advanced Example.at_john) ∧
  rs_columns Example.at_john = Some Driver.people_columns ∧
  rs_columns (Example.advanced Example.at_john)
  = Some Driver.people_columns ∧
  length (rs_loader (Example.advanced Example.at_john))
  = length (rs_loader Example.at_john).
Proof.
  assert (Rows_Next Example.at_john
          = Ret (true, Example.advanced Example.at_john)) as Hn
    by reflexivity.
  assert (rs_columns Example.at_john = Some Driver.people_columns) as Hc
    by reflexivity.
  split; [exact Hn|]. split; [exact Hc|].
  exact (proj1 (X7_columns_fetched_once Example.at_john
                  (Example.advanced Example.at_john) true Hn)
           Driver.people_columns Hc).
Defined.

Lemma X8_witness :
  Rows_Next (newRows Example.empty_query)
  = Ret (false, Example.advanced (newRows Example.empty_query)) ∧
  Rows_Err (Example.advanced (newRows Example.empty_query)) = None ∧
  ∃ s, sql_Next Example.empty_query = (false, s) ∧ sql_Err s = None.
Proof.
  assert (Rows_Next (newRows Example.empty_query)
          = Ret (false, Example.advanced (newRows Example.empty_query)))
    as Hn by reflexivity.
  assert (Rows_Err (Example.advanced (newRows Example.empty_query)) = None)
    as He by reflexivity.
  split; [exact Hn|]. split; [exact He|].
  destruct (proj1 (X8_false_and_no_error_is_exhaustion _ _ Hn) He)
    as (s & Hs & Hes & _).
  exists s. split; [exact Hs | exact Hes].
Defined.

Lemma X9_witness :
  reachable (newRows Example.two_rows) ∧
  Rows_Next (newRows Example.two_rows) = Ret (true, Example.at_john) ∧
  Rows_Err Example.at_john = None ∧
  slice (rs_columns Example.at_john) !! 1 = Some "name" ∧
  rs_loader Example.at_john !! 1 = Some (VString "john doe") ∧
  Rows_GetString Example.at_john "name" = ("john doe", None) ∧
  Rows_GetInteger Example.at_john "name"
  = (0%Z, Some ErrInvalidColumnTypeConversion).
Proof.
  assert (Rows_Err Example.at_john = None) as He by reflexivity.
  assert (slice (rs_columns Example.at_john) !! 1 = Some "name") as Hc
    by reflexivity.
  assert (rs_loader Example.at_john !! 1 = Some (VString "john doe")) as Hv
    by reflexivity.
  assert (∀ j, 1 < j → slice (rs_columns Example.at_john) !! j ≠ Some "name")
    as Hlast.
  { intros j Hj. do 5 (destruct j as [|j]; [simpl; (lia || discriminate)|]).
    discriminate. }
  split; [apply reach_new|]. split; [exact Example_at_john_Next|].
  split; [exact He|]. split; [exact Hc|]. split; [exact Hv|].
  destruct (X9_getters_read_fetched_row (newRows Example.two_rows)
              Example.at_john 1 "name" (VString "john doe")
              (reach_new _) Example_at_john_Next He Hc Hlast Hv)
    as (_ & Hint & _ & Hstr & _).
  split; [exact Hstr | exact Hint].
Defined.

Lemma X10_witness :
  (Example.john_query, Some Example.connection_reset).2
  = Some Example.connection_reset ∧
  Row_Scan (Query_Row (Example.john_query, Some Example.connection_reset))
    Example.five
  = Ret ((Example.five, Some Example.connection_reset),
         Query_Row (Example.john_query, Some Example.connection_reset)) ∧
  Row_GetString (Query_Row (Example.john_query, Some Example.connection_reset))
    "name"
  = Panic "nil pointer dereference".
Proof.
  split; [reflexivity|].
  destruct (X10_failed_query_view
              (Example.john_query, Some Example.connection_reset)
              Example.connection_reset Example.five "name" eq_refl)
    as (Hscan & _ & _ & _ & Hstr & _).
  split; [exact Hscan | exact Hstr].
Defined.

Lemma Example_john_chain :
  sql_Next Example.john_query = (true, Example.john_fetched) ∧
  sql_Columns Example.john_fetched = (Some Driver.people_columns, None) ∧
  sql_Scan Example.john_fetched
    (replicate (length (slice (Some Driver.people_columns))) VNil)
  = ((Driver.john_doe, None), Example.john_fetched) ∧
  sql_Scan Example.john_fetched Example.five
  = ((Driver.john_doe, None), Example.john_fetched) ∧
  sql_Close Example.john_fetched = (None, Example.john_closed) ∧
  sql_Close Example.john_closed = (None, Example.john_closed) ∧
  sql_Next Example.john_closed = (false, Example.john_closed) ∧
  sql_Err Example.john_closed = None.
Proof. by split_and!. Qed.

Lemma X11_witness :
  (sql_Next Example.john_query = (true, Example.john_fetched) ∧
   sql_Columns Example.john_fetched = (Some Driver.people_columns, None) ∧
   sql_Scan Example.john_fetched
     (replicate (length (slice (Some Driver.people_columns))) VNil)
   = ((Driver.john_doe, None), Example.john_fetched) ∧
   sql_Scan Example.john_fetched Example.five
   = ((Driver.john_doe, None), Example.john_fetched) ∧
   sql_Close Example.john_fetched = (None, Example.john_closed) ∧
   sql_Close Example.john_closed = (None, Example.john_closed)) ∧
  ∃ rs',
    Row_Scan (Query_Row (mkLogged Example.john_query [], None)) Example.five
    = Ret ((Driver.john_doe, None), mkRow None false (Some rs')) ∧
    lg_calls (rs_Rows rs') = [CNext true; CScan; CScan; CClose; CClose].
Proof.
  destruct Example_john_chain as (Hn & Hc & Hs1 & Hs2 & Hc1 & Hc2 & _ & _).
  split; [by split_and!|].
  destruct (X11_Scan_decodes_twice _ _ _ _ _ _ _ _ _ _ None None None
              Hn Hc Hs1 Hs2 Hc1 Hc2) as (rs' & Hscan & _ & Hcalls & _).
  exists rs'. split; [exact Hscan | exact Hcalls].
Defined.

Lemma X12_witness :
  (sql_Next Example.john_query = (true, Example.john_fetched) ∧
   sql_Columns Example.john_fetched = (Some Driver.people_columns, None) ∧
   sql_Scan Example.john_fetched
     (replicate (length (slice (Some Driver.people_columns))) VNil)
   = ((Driver.john_doe, None), Example.john_fetched) ∧
   sql_Scan Example.john_fetched Example.five
   = ((Driver.john_doe, None), Example.john_fetched) ∧
   sql_Close Example.john_fetched = (None, Example.john_closed) ∧
   sql_Close Example.john_closed = (None, Example.john_closed) ∧
   sql_Next Example.john_closed = (false, Example.john_closed) ∧
   sql_Err Example.john_closed = None) ∧
  Scan_then (Query_Row (mkLogged Example.john_query [], None)) Example.five
    Row_GetString "name"
  = Ret ((Driver.john_doe, None), ("", Some ErrNoRows)).
Proof.
  split; [exact Example_john_chain|].
  destruct Example_john_chain as (Hn & Hc & Hs1 & Hs2 & Hc1 & Hc2 & Hn2 & He).
  exact (proj1 (proj2 (proj2 (proj2
           (X12_getter_after_Scan _ _ _ _ _ _ _ _ _ _ _ None None "name"
              Hn Hc Hs1 Hs2 Hc1 Hc2 Hn2 He))))).
Defined.

Lemma X13_witness :
  (sql_Next Example.john_query = (true, Example.john_fetched) ∧
   sql_Columns Example.john_fetched = (Some Driver.people_columns, None) ∧
   sql_Scan Example.john_fetched
     (replicate (length (slice (Some Driver.people_columns))) VNil)
   = ((Driver.john_doe, None), Example.john_fetched) ∧
   sql_Close Example.john_fetched = (None, Example.john_closed) ∧
   sql_Close Example.john_closed = (None, Example.john_closed) ∧
   sql_Next Example.john_closed = (false, Example.john_closed) ∧
   sql_Err Example.john_closed = None) ∧
  then_Scan (Query_Row (mkLogged Example.john_query [], None))
    Row_GetString "name" Example.five
  = Ret (("john doe", None), (Example.five, Some ErrNoRows)).
Proof.
  destruct Example_john_chain as (Hn & Hc & Hs1 & _ & Hc1 & Hc2 & Hn2 & He).
  split; [by split_and!|].
  exact (proj1 (proj2 (proj2 (proj2
           (X13_Scan_after_getter _ _ _ _ _ _ _ _ Example.five None None
              "name" Hn Hc Hs1 Hc1 Hc2 Hn2 He))))).
Defined.

Lemma X14_witness :
  (sql_Next Example2.busy_query = (true, Example2.busy_fetched) ∧
   sql_Columns Example2.busy_fetched = (Some Driver.people_columns, None) ∧
   sql_Scan Example2.busy_fetched
     (replicate (length (slice (Some Driver.people_columns))) VNil)
   = ((Driver.john_doe, None), Example2.busy_fetched) ∧
   sql_Close Example2.busy_fetched
   = (Some Example2.busy, Example2.busy_closed) ∧
   sql_Close Example2.busy_closed = (None, Example2.busy_closed)) ∧
  ∃ r1,
    Row_GetString (Query_Row (mkLogged Example2.busy_query [], None)) "name"
    = Ret (("", Some Example2.busy), r1) ∧
    Row_GetString r1 "name" = Ret (("john doe", None), r1).
Proof.
  assert (sql_Next Example2.busy_query = (true, Example2.busy_fetched))
    as Hn by reflexivity.
  assert (sql_Columns Example2.busy_fetched
          = (Some Driver.people_columns, None)) as Hc by reflexivity.
  assert (sql_Scan Example2.busy_fetched
            (replicate (length (slice (Some Driver.people_columns))) VNil)
          = ((Driver.john_doe, None), Example2.busy_fetched)) as Hs
    by reflexivity.
  assert (sql_Close Example2.busy_fetched
          = (Some Example2.busy, Example2.busy_closed)) as Hc1
    by reflexivity.
  assert (sql_Close Example2.busy_closed = (None, Example2.busy_closed))
    as Hc2 by reflexivity.
  split; [by split_and!|].
  destruct (X14_close_error_reported_once _ _ _ _ _ _ _ Example2.busy None
              "name" Hn Hc Hs Hc1 Hc2) as [Hfirst Hlater].
  eexists. split.
  - exact (f_equal (λ t, t.1.2) Hfirst).
  - exact (f_equal (λ t, t.1.2) Hlater).
Defined.

Lemma X15_witness :
  (sql_Next Example.empty_query = (false, Example2.empty_closed) ∧
   sql_Err Example2.empty_closed = None ∧
   sql_Close Example2.empty_closed = (None, Example2.empty_closed)) ∧
  ∃ r1,
    Row_GetBoolean (Query_Row (mkLogged Example.empty_query [], None))
      "married"
    = Ret ((false, Some ErrNoRows), r1) ∧
    Row_GetBoolean r1 "married"
    = Ret ((false, Some ErrInvalidColumnTypeConversion), r1) ∧
    Row_GetInteger r1 "id" = Ret ((0%Z, Some ErrNoRows), r1).
Proof.
  assert (sql_Next Example.empty_query = (false, Example2.empty_closed))
    as Hn by reflexivity.
  assert (sql_Err Example2.empty_closed = None) as He by reflexivity.
  assert (sql_Close Example2.empty_closed = (None, Example2.empty_closed))
    as Hc by reflexivity.
  split; [by split_and!|].
  pose proof (X15_no_row_later_getters _ _ _ None "married" Hn He Hc He)
    as [Hfirst Hlater].
  pose proof (X15_no_row_later_getters _ _ _ None "id" Hn He Hc He)
    as [_ Hlater_id].
  eexists. split_and!.
  - exact (f_equal (λ t, t.1.1.1.1) Hfirst).
  - exact (f_equal (λ t, t.1.1.1.1) Hlater).
  - exact (f_equal (λ t, t.1.1.1.2) Hlater_id).
Defined.
